(** * riscv/mmu.h: the simulator's port into the virtual memory system

    A shallow embedding of [mmu_t] (riscv/mmu.h): the aligned load and store
    accessors generated by [load_func] and [store_func], the instruction
    fetch [load_insn] with its instruction cache, the fast-path [translate]
    with its TLB, and the page-table-base and mode setters.

    Machine integers are [Z] with the wrap-around written out; the C arrays
    of [TLB_ENTRIES] and [ICACHE_ENTRIES] elements are total functions on
    their index (every index the code computes is reduced modulo the array
    length); a C++ [throw] is the [Throw] outcome of a state-and-exception
    monad, which keeps the state reached when the exception leaves. *)

From Stdlib Require Import ZArith Lia Bool List.
From coqutil Require Import Byte Word.LittleEndianList.
Import ListNotations.
Local Open Scope Z_scope.

(** ** Machine integers *)

(** [reg_t] and [pte_t] are 64-bit unsigned words, [long] is the host's
    64-bit signed word; all three are kept as their unsigned representative. *)
Definition reg_t := Z.
Definition pte_t := reg_t.

Definition wrap64 (x : Z) : Z := x mod 2 ^ 64.
Definition wrap32 (x : Z) : Z := x mod 2 ^ 32.

(** [~x] on a [reg_t]. *)
Definition not64 (x : Z) : Z := wrap64 (Z.lnot x).

(** ** Virtual memory configuration (mmu.h, lines 11-32) *)

Definition sizeof_pte_t : Z := 8.
Definition sizeof_reg_t : Z := 8.

Definition LEVELS : reg_t := 4.
Definition PGSHIFT : reg_t := 12.
Definition PGSIZE : reg_t := Z.shiftl 1 PGSHIFT.
Definition PTIDXBITS : reg_t := PGSHIFT - (if sizeof_pte_t =? 8 then 3 else 2).
Definition PPN_BITS : reg_t := 8 * sizeof_reg_t - PGSHIFT.

Definition PTE_T : Z := 0x001.
Definition PTE_E : Z := 0x002.
Definition PTE_R : Z := 0x004.
Definition PTE_D : Z := 0x008.
Definition PTE_UX : Z := 0x010.
Definition PTE_UW : Z := 0x020.
Definition PTE_UR : Z := 0x040.
Definition PTE_SX : Z := 0x080.
Definition PTE_SW : Z := 0x100.
Definition PTE_SR : Z := 0x200.
Definition PTE_PERM : Z :=
  Z.lor PTE_SR (Z.lor PTE_SW (Z.lor PTE_SX (Z.lor PTE_UR (Z.lor PTE_UW PTE_UX)))).
Definition PTE_PERM_SHIFT : Z := 4.
Definition PTE_PPN_SHIFT : Z := 12.

Definition TLB_ENTRIES : reg_t := 256.
Definition ICACHE_ENTRIES : reg_t := 256.

(** ** Traps *)

(** Modelled from the spec: trap.h is not among the sources.  mmu.h throws
    [trap_load_address_misaligned] and [trap_store_address_misaligned]; the
    other constructors are the remaining members of the fault taxonomy
    (misaligned access, page fault, access violation, each with a fetch, a
    load and a store variant). *)
Inductive trap_t : Type :=
| trap_instruction_address_misaligned
| trap_load_address_misaligned
| trap_store_address_misaligned
| trap_instruction_page_fault
| trap_load_page_fault
| trap_store_page_fault
| trap_instruction_access_fault
| trap_load_access_fault
| trap_store_access_fault.

Definition is_misaligned (t : trap_t) : bool :=
  match t with
  | trap_instruction_address_misaligned
  | trap_load_address_misaligned
  | trap_store_address_misaligned => true
  | _ => false
  end.

(** ** State and exceptions *)

Inductive outcome (S A : Type) : Type :=
| Ok (a : A) (s : S)
| Throw (t : trap_t) (s : S).
Arguments Ok {S A} a s.
Arguments Throw {S A} t s.

Definition M (S A : Type) : Type := S -> outcome S A.

Definition ret {S A} (a : A) : M S A := fun s => Ok a s.

Definition bind {S A B} (c : M S A) (k : A -> M S B) : M S B :=
  fun s => match c s with
           | Ok a s' => k a s'
           | Throw t s' => Throw t s'
           end.

Definition throw {S A} (t : trap_t) : M S A := fun s => Throw t s.
Definition gets {S A} (f : S -> A) : M S A := fun s => Ok (f s) s.
Definition modify {S} (f : S -> S) : M S unit := fun s => Ok tt (f s).

Notation "x <- c ;; k" := (bind c (fun x => k))
  (at level 61, c at next level, right associativity).
Notation "c ;; k" := (bind c (fun _ => k))
  (at level 61, right associativity).

(** The state an outcome carries, and its trap if it has one. *)
Definition final {S A} (o : outcome S A) : S :=
  match o with Ok _ s => s | Throw _ s => s end.

Definition raised {S A} (o : outcome S A) : option trap_t :=
  match o with Ok _ _ => None | Throw t _ => Some t end.

Definition returned {S A} (o : outcome S A) : option A :=
  match o with Ok a _ => Some a | Throw _ _ => None end.

(** Whether an outcome is a misaligned-access fault. *)
Definition raises_misaligned {S A} (o : outcome S A) : bool :=
  match raised o with
  | Some t => is_misaligned t
  | None => false
  end.

(** ** Backing memory *)

(** The buffer behind [char* mem], seen from a resolved location: a byte at
    every offset.  Multi-byte accesses are the host's, little-endian. *)
Definition memory := Z -> byte.

Definition load_bytes (m : memory) (a : Z) (n : nat) : list byte :=
  map (fun i => m (a + Z.of_nat i)) (seq 0 n).

Fixpoint store_bytes (m : memory) (a : Z) (bs : list byte) : memory :=
  match bs with
  | [] => m
  | b :: bs' =>
      store_bytes (fun x => if x =? a then b else m x) (a + 1) bs'
  end.

(** ** Fixed-width integer types of the accessors *)

Inductive int_type : Type :=
| uint8 | uint16 | uint32 | uint64
| int8 | int16 | int32 | int64.

Definition sizeof (ty : int_type) : Z :=
  match ty with
  | uint8 | int8 => 1
  | uint16 | int16 => 2
  | uint32 | int32 => 4
  | uint64 | int64 => 8
  end.

Definition bits_of (ty : int_type) : Z := 8 * sizeof ty.

Definition is_signed (ty : int_type) : bool :=
  match ty with
  | int8 | int16 | int32 | int64 => true
  | _ => false
  end.

(** The value of type [ty] that a [bits_of ty]-bit pattern stands for. *)
Definition interp (ty : int_type) (u : Z) : Z :=
  if is_signed ty && (2 ^ (bits_of ty - 1) <=? u) then u - 2 ^ bits_of ty else u.

(** [*(type_t* )paddr] as an rvalue. *)
Definition deref (ty : int_type) (m : memory) (paddr : Z) : Z :=
  interp ty (le_combine (load_bytes m paddr (Z.to_nat (sizeof ty)))).

(** [*(type_t* )paddr = val]. *)
Definition assign (ty : int_type) (m : memory) (paddr : Z) (val : Z) : memory :=
  store_bytes m paddr (le_split (Z.to_nat (sizeof ty)) val).

(** ** The instruction container and the decoder *)

(** [insn_t] is held as its [bits] member, a 32-bit unsigned word;
    [insn_func_t] is a pointer to an instruction's implementation, held as
    an integer handle. *)
Definition insn_t := Z.
Definition insn_func_t := Z.
Definition sizeof_insn_t : Z := 4.

(** What the fetch path takes from config.h, decode.h and processor.h, none
    of which is among the sources: whether the build defines
    [RISCV_ENABLE_RVC], the macro [INSN_IS_RVC], and the processor's
    [dispatch_table] with its length. *)
Class processor_t : Type := {
  RISCV_ENABLE_RVC : bool;
  INSN_IS_RVC : Z -> bool;
  DISPATCH_TABLE_SIZE : Z;
  dispatch_table : Z -> insn_func_t
}.

(** ** The MMU *)

Record mmu_t : Type := mk_mmu {
  mem : memory;
  memsz : Z;
  badvaddr : reg_t;
  ptbr : reg_t;
  supervisor : bool;
  vm_enabled : bool;
  tlb_data : Z -> Z;
  tlb_insn_tag : Z -> reg_t;
  tlb_load_tag : Z -> reg_t;
  tlb_store_tag : Z -> reg_t;
  icache_data : Z -> insn_t;
  icache_func : Z -> insn_func_t;
  icache_tag : Z -> reg_t
}.

(** [a[i] = v] *)
Definition upd {A} (a : Z -> A) (i : Z) (v : A) : Z -> A :=
  fun j => if j =? i then v else a j.

Definition with_mem (f : memory -> memory) (s : mmu_t) : mmu_t :=
  mk_mmu (f (mem s)) (memsz s) (badvaddr s) (ptbr s) (supervisor s)
    (vm_enabled s) (tlb_data s) (tlb_insn_tag s) (tlb_load_tag s)
    (tlb_store_tag s) (icache_data s) (icache_func s) (icache_tag s).

Definition with_badvaddr (v : reg_t) (s : mmu_t) : mmu_t :=
  mk_mmu (mem s) (memsz s) v (ptbr s) (supervisor s)
    (vm_enabled s) (tlb_data s) (tlb_insn_tag s) (tlb_load_tag s)
    (tlb_store_tag s) (icache_data s) (icache_func s) (icache_tag s).

Definition with_ptbr (v : reg_t) (s : mmu_t) : mmu_t :=
  mk_mmu (mem s) (memsz s) (badvaddr s) v (supervisor s)
    (vm_enabled s) (tlb_data s) (tlb_insn_tag s) (tlb_load_tag s)
    (tlb_store_tag s) (icache_data s) (icache_func s) (icache_tag s).

Definition with_supervisor (v : bool) (s : mmu_t) : mmu_t :=
  mk_mmu (mem s) (memsz s) (badvaddr s) (ptbr s) v
    (vm_enabled s) (tlb_data s) (tlb_insn_tag s) (tlb_load_tag s)
    (tlb_store_tag s) (icache_data s) (icache_func s) (icache_tag s).

Definition with_vm_enabled (v : bool) (s : mmu_t) : mmu_t :=
  mk_mmu (mem s) (memsz s) (badvaddr s) (ptbr s) (supervisor s)
    v (tlb_data s) (tlb_insn_tag s) (tlb_load_tag s)
    (tlb_store_tag s) (icache_data s) (icache_func s) (icache_tag s).

Definition with_tlb_data (f : (Z -> Z) -> Z -> Z) (s : mmu_t) : mmu_t :=
  mk_mmu (mem s) (memsz s) (badvaddr s) (ptbr s) (supervisor s)
    (vm_enabled s) (f (tlb_data s)) (tlb_insn_tag s) (tlb_load_tag s)
    (tlb_store_tag s) (icache_data s) (icache_func s) (icache_tag s).

Definition with_tlb_insn_tag (f : (Z -> reg_t) -> Z -> reg_t) (s : mmu_t) : mmu_t :=
  mk_mmu (mem s) (memsz s) (badvaddr s) (ptbr s) (supervisor s)
    (vm_enabled s) (tlb_data s) (f (tlb_insn_tag s)) (tlb_load_tag s)
    (tlb_store_tag s) (icache_data s) (icache_func s) (icache_tag s).

Definition with_tlb_load_tag (f : (Z -> reg_t) -> Z -> reg_t) (s : mmu_t) : mmu_t :=
  mk_mmu (mem s) (memsz s) (badvaddr s) (ptbr s) (supervisor s)
    (vm_enabled s) (tlb_data s) (tlb_insn_tag s) (f (tlb_load_tag s))
    (tlb_store_tag s) (icache_data s) (icache_func s) (icache_tag s).

Definition with_tlb_store_tag (f : (Z -> reg_t) -> Z -> reg_t) (s : mmu_t) : mmu_t :=
  mk_mmu (mem s) (memsz s) (badvaddr s) (ptbr s) (supervisor s)
    (vm_enabled s) (tlb_data s) (tlb_insn_tag s) (tlb_load_tag s)
    (f (tlb_store_tag s)) (icache_data s) (icache_func s) (icache_tag s).

Definition with_icache_data (f : (Z -> insn_t) -> Z -> insn_t) (s : mmu_t) : mmu_t :=
  mk_mmu (mem s) (memsz s) (badvaddr s) (ptbr s) (supervisor s)
    (vm_enabled s) (tlb_data s) (tlb_insn_tag s) (tlb_load_tag s)
    (tlb_store_tag s) (f (icache_data s)) (icache_func s) (icache_tag s).

Definition with_icache_func (f : (Z -> insn_func_t) -> Z -> insn_func_t)
    (s : mmu_t) : mmu_t :=
  mk_mmu (mem s) (memsz s) (badvaddr s) (ptbr s) (supervisor s)
    (vm_enabled s) (tlb_data s) (tlb_insn_tag s) (tlb_load_tag s)
    (tlb_store_tag s) (icache_data s) (f (icache_func s)) (icache_tag s).

Definition with_icache_tag (f : (Z -> reg_t) -> Z -> reg_t) (s : mmu_t) : mmu_t :=
  mk_mmu (mem s) (memsz s) (badvaddr s) (ptbr s) (supervisor s)
    (vm_enabled s) (tlb_data s) (tlb_insn_tag s) (tlb_load_tag s)
    (tlb_store_tag s) (icache_data s) (icache_func s) (f (icache_tag s)).

(** ** Access kinds *)

(** The pair of flags [(store, fetch)] that [translate] and [refill] take
    selects one of three kinds, [fetch] first: this is the order of the
    conditional at mmu.h line 180. *)
Inductive access_kind : Type := Fetch | Load | Store.

Definition kind_of (store fetch : bool) : access_kind :=
  if fetch then Fetch else if store then Store else Load.

Definition tlb_tag_of (k : access_kind) (s : mmu_t) : Z -> reg_t :=
  match k with
  | Fetch => tlb_insn_tag s
  | Store => tlb_store_tag s
  | Load => tlb_load_tag s
  end.

(** ** Page-table walker and refill unit *)

(** Neither is defined in mmu.h, which only declares them; what follows, up
    to [refill], is their model. *)

(** Modelled from the spec: a PTE is a machine word read from the buffer at
    the entry's physical address. *)
Definition read_pte (m : memory) (a : Z) : pte_t :=
  le_combine (load_bytes m a (Z.to_nat sizeof_pte_t)).

(** Modelled from the spec: the slice of the virtual address that indexes
    the table of a level, the most significant slice at level 0; each slice
    is [PTIDXBITS] wide and the slices sit above the page offset. *)
Definition pt_index (addr : reg_t) (level : Z) : Z :=
  Z.land (Z.shiftr addr (PGSHIFT + (LEVELS - 1 - level) * PTIDXBITS))
         (Z.shiftl 1 PTIDXBITS - 1).

(** Modelled from the spec: the physical page base a PTE names, its
    physical page number (the bits from [PTE_PPN_SHIFT] upward) moved to page
    granularity. *)
Definition pte_base (pte : pte_t) : Z :=
  wrap64 (Z.shiftl (Z.shiftr pte PTE_PPN_SHIFT) PGSHIFT).

(** Modelled from the spec: a leaf has the entry bit and not the
    table-descriptor bit. *)
Definition pte_is_leaf (pte : pte_t) : bool :=
  negb (Z.land pte PTE_E =? 0) && (Z.land pte PTE_T =? 0).

(** Modelled from the spec: a table descriptor has the table-descriptor bit
    and not the entry bit. *)
Definition pte_is_table (pte : pte_t) : bool :=
  negb (Z.land pte PTE_T =? 0) && (Z.land pte PTE_E =? 0).

(** Modelled from the spec: [walk] is declared at mmu.h line 173 and defined
    outside the sources.  A radix lookup of [LEVELS] levels from the
    page-table base: at each level the PTE at [base + index * entry size] is
    read; a table descriptor leads to the next level through its physical
    page number, a leaf entry is the result, any other encoding is a fault,
    and so is the last level when it holds no leaf.  The walker keeps no
    state and writes nothing. *)
Fixpoint walk_from (n : nat) (m : memory) (base : Z) (level : Z)
    (addr : reg_t) : option pte_t :=
  match n with
  | O => None
  | S n' =>
      let pte := read_pte m (wrap64 (base + pt_index addr level * sizeof_pte_t)) in
      if pte_is_leaf pte then Some pte
      else if pte_is_table pte then walk_from n' m (pte_base pte) (level + 1) addr
      else None
  end.

(** Modelled from the spec: the walk starts at level 0 with the page-table
    base as table address; [None] is the fault indication. *)
Definition walk (s : mmu_t) (addr : reg_t) : option pte_t :=
  walk_from (Z.to_nat LEVELS) (mem s) (ptbr s) 0 addr.

(** Modelled from the spec: the permission bit an access of a kind needs at
    a privilege level ([true] is supervisor). *)
Definition required_bit (k : access_kind) (sup : bool) : Z :=
  match k, sup with
  | Fetch, true => PTE_SX
  | Fetch, false => PTE_UX
  | Load, true => PTE_SR
  | Load, false => PTE_UR
  | Store, true => PTE_SW
  | Store, false => PTE_UW
  end.

(** Modelled from the spec: the page fault tagged with an access kind. *)
Definition page_fault (k : access_kind) : trap_t :=
  match k with
  | Fetch => trap_instruction_page_fault
  | Load => trap_load_page_fault
  | Store => trap_store_page_fault
  end.

(** Modelled from the spec: the access violation tagged with an access
    kind. *)
Definition access_fault (k : access_kind) : trap_t :=
  match k with
  | Fetch => trap_instruction_access_fault
  | Load => trap_load_access_fault
  | Store => trap_store_access_fault
  end.

(** The slot of a virtual address and the tag a hit needs there: the
    expressions of mmu.h lines 178 and 181. *)
Definition tlb_index (addr : reg_t) : Z := Z.shiftr addr PGSHIFT mod TLB_ENTRIES.
Definition page_tag (addr : reg_t) : reg_t := Z.land addr (not64 (PGSIZE - 1)).

(** Modelled from the spec: a new entry for a kind at a slot is the tag in
    the kind's own tag array and the page base in the slot's [tlb_data].  The
    spec does not say what becomes of the tags of the other kinds at the
    slot; they are left as they were, and no theorem depends on it. *)
Definition tlb_install (k : access_kind) (idx : Z) (tag : reg_t) (base : Z)
    (s : mmu_t) : mmu_t :=
  let s' :=
    match k with
    | Fetch => with_tlb_insn_tag (fun a => upd a idx tag) s
    | Load => with_tlb_load_tag (fun a => upd a idx tag) s
    | Store => with_tlb_store_tag (fun a => upd a idx tag) s
    end in
  with_tlb_data (fun a => upd a idx base) s'.

(** Modelled from the spec: [refill] is declared at mmu.h line 170 and
    defined outside the sources.  It walks the page table; a failed walk
    records the address and raises the page fault of the access kind; a leaf
    without the permission bit of the kind and privilege level records the
    address and raises the access violation of the kind; otherwise the leaf's
    page base is written, with the page-aligned virtual address as tag, into
    the kind's slot [(addr >> PGSHIFT) mod TLB_ENTRIES], and the page offset
    combined with the page base is returned. *)
Definition refill (addr : reg_t) (store fetch : bool) : M mmu_t Z :=
  fun s =>
    let k := kind_of store fetch in
    match walk s addr with
    | None => Throw (page_fault k) (with_badvaddr addr s)
    | Some pte =>
        if Z.land pte (required_bit k (supervisor s)) =? 0 then
          Throw (access_fault k) (with_badvaddr addr s)
        else
          let base := pte_base pte in
          Ok (Z.lor (Z.land addr (PGSIZE - 1)) base)
             (tlb_install k (tlb_index addr) (page_tag addr) base s)
    end.

(** ** Flushing *)

(** Modelled from the spec: the value the flushes write into every tag, one
    that no page tag and no instruction address equals: the all-ones word,
    which is neither page aligned nor even. *)
Definition TAG_INVALID : reg_t := wrap64 (-1).

(** Modelled from the spec: [flush_icache] is declared at mmu.h line 145 and
    defined outside the sources; it resets every instruction-cache tag. *)
Definition flush_icache (s : mmu_t) : mmu_t :=
  with_icache_tag (fun _ _ => TAG_INVALID) s.

(** Modelled from the spec: [flush_tlb] is declared at mmu.h line 144, under
    the comment "flush the TLB and instruction cache", and defined outside
    the sources; it resets every tag of the three TLB tag arrays and flushes
    the instruction cache, so that [set_ptbr], which calls nothing else,
    invalidates both caches. *)
Definition flush_tlb (s : mmu_t) : mmu_t :=
  flush_icache
    (with_tlb_store_tag (fun _ _ => TAG_INVALID)
       (with_tlb_load_tag (fun _ _ => TAG_INVALID)
          (with_tlb_insn_tag (fun _ _ => TAG_INVALID) s))).

(** ** mmu_t::translate (mmu.h, lines 176-186) *)

Definition translate (addr : reg_t) (store fetch : bool) : M mmu_t Z :=
  fun s =>
    let idx := Z.shiftr addr PGSHIFT mod TLB_ENTRIES in
    let tlb_tag :=
      if fetch then tlb_insn_tag s
      else if store then tlb_store_tag s else tlb_load_tag s in
    let expected_tag := Z.land addr (not64 (PGSIZE - 1)) in
    if tlb_tag idx =? expected_tag then
      Ok (Z.lor (Z.land addr (PGSIZE - 1)) (tlb_data s idx)) s
    else
      refill addr store fetch s.

(** ** load_func and store_func (mmu.h, lines 43-82) *)

Definition load_func (ty : int_type) (addr : reg_t) : M mmu_t Z :=
  if negb (addr mod sizeof ty =? 0) then
    modify (with_badvaddr addr) ;;
    throw trap_load_address_misaligned
  else
    paddr <- translate addr false false ;;
    m <- gets mem ;;
    ret (deref ty m paddr).

Definition load_uint8 := load_func uint8.
Definition load_uint16 := load_func uint16.
Definition load_uint32 := load_func uint32.
Definition load_uint64 := load_func uint64.
Definition load_int8 := load_func int8.
Definition load_int16 := load_func int16.
Definition load_int32 := load_func int32.
Definition load_int64 := load_func int64.

Definition store_func (ty : int_type) (addr : reg_t) (val : Z) : M mmu_t unit :=
  if negb (addr mod sizeof ty =? 0) then
    modify (with_badvaddr addr) ;;
    throw trap_store_address_misaligned
  else
    paddr <- translate addr true false ;;
    modify (with_mem (fun m => assign ty m paddr val)).

Definition store_uint8 := store_func uint8.
Definition store_uint16 := store_func uint16.
Definition store_uint32 := store_func uint32.
Definition store_uint64 := store_func uint64.

(** ** Registers and mode (mmu.h, lines 132-141) *)

Definition get_badvaddr (s : mmu_t) : reg_t := badvaddr s.

Definition set_ptbr (addr : reg_t) (s : mmu_t) : mmu_t :=
  flush_tlb (with_ptbr (Z.land addr (not64 (PGSIZE - 1))) s).

Definition set_supervisor (sup : bool) (s : mmu_t) : mmu_t := with_supervisor sup s.
Definition set_vm_enabled (en : bool) (s : mmu_t) : mmu_t := with_vm_enabled en s.

(** ** mmu_t::load_insn (mmu.h, lines 90-130) *)

(** The fetch runs on the MMU together with the cell its [func] argument
    points to, which it writes before it is done. *)
Definition fetch_state : Type := mmu_t * insn_func_t.

Definition on_mmu {A} (c : M mmu_t A) : M fetch_state A :=
  fun s => match c (fst s) with
           | Ok a s' => Ok a (s', snd s)
           | Throw t s' => Throw t (s', snd s)
           end.

(** [*func = h] *)
Definition set_func (h : insn_func_t) : M fetch_state unit :=
  fun s => Ok tt (fst s, h).

Definition read_uint16 (m : memory) (paddr : Z) : Z := deref uint16 m paddr.
Definition read_insn (m : memory) (paddr : Z) : insn_t := deref uint32 m paddr.

Section Fetch.
Context {P : processor_t}.

Definition load_insn (addr : reg_t) (rvc : bool) : M fetch_state insn_t :=
  if RISCV_ENABLE_RVC && ((addr mod 4 =? 2) && rvc) then
    addr_lo <- on_mmu (translate addr false true) ;;
    m <- on_mmu (gets mem) ;;
    let bits := read_uint16 m addr_lo in
    set_func (dispatch_table (bits mod DISPATCH_TABLE_SIZE)) ;;
    if negb (INSN_IS_RVC bits) then
      addr_hi <- on_mmu (translate (wrap64 (addr + 2)) false true) ;;
      m' <- on_mmu (gets mem) ;;
      ret (Z.lor bits (wrap32 (Z.shiftl (read_uint16 m' addr_hi) 16)))
    else
      ret bits
  else
    let idx := (addr / sizeof_insn_t) mod ICACHE_ENTRIES in
    data <- on_mmu (gets (fun s => icache_data s idx)) ;;
    cached <- on_mmu (gets (fun s => icache_func s idx)) ;;
    set_func cached ;;
    tag <- on_mmu (gets (fun s => icache_tag s idx)) ;;
    if tag =? addr then
      ret data
    else
      paddr <- on_mmu (translate addr false true) ;;
      m <- on_mmu (gets mem) ;;
      let insn := read_insn m paddr in
      on_mmu (modify (with_icache_tag (fun a => upd a idx addr))) ;;
      on_mmu (modify (with_icache_data (fun a => upd a idx insn))) ;;
      let h := dispatch_table (insn mod DISPATCH_TABLE_SIZE) in
      set_func h ;;
      on_mmu (modify (with_icache_func (fun a => upd a idx h))) ;;
      ret insn.

End Fetch.

(** ** Names for what the caches hold *)

(** The test of mmu.h line 182 for an access kind: the tag of the kind at
    the slot of the address is the page of the address. *)
Definition tlb_hit (k : access_kind) (s : mmu_t) (addr : reg_t) : Prop :=
  tlb_tag_of k s (tlb_index addr) = page_tag addr.

(** The location of mmu.h line 183: the page offset of the address combined
    with the page base cached at its slot. *)
Definition tlb_location (s : mmu_t) (addr : reg_t) : Z :=
  Z.lor (Z.land addr (PGSIZE - 1)) (tlb_data s (tlb_index addr)).

(** The instruction-cache slot of a fetch address (mmu.h line 113). *)
Definition icache_index (addr : reg_t) : Z :=
  (addr / sizeof_insn_t) mod ICACHE_ENTRIES.

(** The test of mmu.h line 116. *)
Definition icache_hit (s : mmu_t) (addr : reg_t) : Prop :=
  icache_tag s (icache_index addr) = addr.

(** Whether a fetch takes the path across a word boundary (mmu.h lines 95
    and 96) rather than the path through the instruction cache. *)
Definition across_boundary {P : processor_t} (addr : reg_t) (rvc : bool) : bool :=
  RISCV_ENABLE_RVC && ((addr mod 4 =? 2) && rvc).

(** Every slot that an even fetch address hits holds, as its handle, the
    dispatch-table entry of the instruction bits it holds. *)
Definition icache_decoded {P : processor_t} (s : mmu_t) : Prop :=
  forall pc, pc mod 2 = 0 -> icache_hit s pc ->
    icache_func s (icache_index pc)
    = dispatch_table (icache_data s (icache_index pc) mod DISPATCH_TABLE_SIZE).

(** ** A machine to run the accessors on *)

Module Example.

Definition zero_mem : memory := fun _ => Byte.x00.

(** A buffer that is zero except for the 64-bit words listed. *)
Fixpoint mem_of_words (ws : list (Z * Z)) : memory :=
  match ws with
  | [] => zero_mem
  | (a, w) :: r => assign uint64 (mem_of_words r) a w
  end.

(** A four-level page table rooted at 0x1000.  Virtual page 0 maps to
    physical page 5 with the three supervisor permissions only, virtual
    page 1 to physical page 6 and virtual page 256 to physical page 7 with
    every permission; virtual pages 0 and 256 share TLB slot 0.  Physical
    page 5 holds a data word at offset 4.  Physical page 6 starts with the
    four-byte instruction 0x00010013, whose upper half-word 0x0001 also
    reads as a two-byte instruction, and ends with the half-word 0x0003, the
    low half of a four-byte instruction whose high half lies on the unmapped
    virtual page 2. *)
Definition ex_mem : memory :=
  mem_of_words
    [ (0x1000, 0x2001); (0x2000, 0x3001); (0x3000, 0x4001);
      (0x4000, 0x5382); (0x4008, 0x63f2); (0x4800, 0x73f2);
      (0x5000, 0x1122334400000000); (0x6000, 0x0000000000010013);
    (0x6ff8, 0x0003000000000000) ].

Definition ex_mmu : mmu_t :=
  flush_tlb
    (mk_mmu ex_mem 0x10000 0 0x1000 false true
       (fun _ => 0) (fun _ => 0) (fun _ => 0) (fun _ => 0)
       (fun _ => 0) (fun _ => 0) (fun _ => 0)).

Definition ex_sup : mmu_t := set_supervisor true ex_mmu.

(** A decoder: two-byte instructions are those whose two low bits are not
    both set; the dispatch table has 1024 entries and entry [i] is the
    handle [0x1000 + i]. *)
Definition ex_processor : processor_t :=
  {| RISCV_ENABLE_RVC := true;
     INSN_IS_RVC := fun x => Z.land x 3 <? 3;
     DISPATCH_TABLE_SIZE := 1024;
     dispatch_table := fun i => 0x1000 + i |}.

(** The supervisor loads from virtual page 0, which fills the load slot 0. *)
Definition ex_after_load : mmu_t := final (translate 4 false false ex_sup).

(** Virtual memory is switched off after the load. *)
Definition ex_vm_off : mmu_t := set_vm_enabled false ex_after_load.

(** The instruction at virtual address 0x1000 is fetched, which fills
    instruction-cache slot 0; then the page-table base is moved to the zero
    page, where nothing is mapped. *)
Definition ex_fetched : mmu_t :=
  fst (final (load_insn (P := ex_processor) 0x1000 false (ex_mmu, 0))).

Definition ex_remapped : mmu_t := set_ptbr 0 ex_fetched.

(** Virtual page 1 is loaded from and then stored to without privilege,
    which fills the load slot 1 and the store slot 1. *)
Definition ex_page1 : mmu_t :=
  final (translate 0x1008 true false (final (translate 0x1008 false false ex_mmu))).

(** Virtual page 1 is fetched from, which fills the fetch slot 1. *)
Definition ex_page1_fetch : mmu_t := final (translate 0x1000 false true ex_mmu).

(** The four-byte instruction 0x12345677 is put at physical offset 0x6012,
    that is at virtual address 0x1012, across a word boundary. *)
Definition ex_split : mmu_t :=
  with_mem (fun m => assign uint32 m 0x6012 0x12345677) ex_page1_fetch.






End Example.

(** * Properties *)

(** ** Page arithmetic *)

Lemma not64_page_mask : not64 (PGSIZE - 1) = Z.ldiff (Z.ones 64) (Z.ones 12).
Proof. reflexivity. Qed.

Lemma page_offset_mod (a : Z) : Z.land a (PGSIZE - 1) = a mod PGSIZE.
Proof.
  change (PGSIZE - 1) with (Z.ones 12).
  rewrite Z.land_ones by lia. reflexivity.
Qed.

Lemma shiftr_page (a : Z) : Z.shiftr a PGSHIFT = a / PGSIZE.
Proof. rewrite Z.shiftr_div_pow2 by (unfold PGSHIFT; lia). reflexivity. Qed.

Lemma page_tag_ldiff (a : Z) : page_tag a = Z.ldiff (wrap64 a) (Z.ones 12).
Proof.
  unfold page_tag, wrap64. rewrite not64_page_mask.
  rewrite <- Z.land_ones by lia.
  apply Z.bits_inj'. intros n Hn.
  rewrite Z.land_spec, !Z.ldiff_spec, Z.land_spec.
  destruct (Z.testbit a n), (Z.testbit (Z.ones 64) n),
    (Z.testbit (Z.ones 12) n); reflexivity.
Qed.


Lemma page_tag_in_range (a : Z) :
  0 <= a < 2 ^ 64 -> page_tag a = a - a mod PGSIZE.
Proof.
  intros H. rewrite page_tag_ldiff. unfold wrap64.
  rewrite Z.mod_small by exact H.
  rewrite Z.ldiff_ones_r by lia.
  rewrite Z.shiftl_mul_pow2, Z.shiftr_div_pow2 by lia.
  change (2 ^ 12) with PGSIZE.
  pose proof (Z.div_mod a PGSIZE ltac:(discriminate)). lia.
Qed.


(** Combining an offset below the page size with a page-aligned base is an
    addition. *)
Lemma lor_offset_base (off base : Z) :
  0 <= off < PGSIZE -> 0 <= base -> base mod PGSIZE = 0 ->
  Z.lor off base = off + base.
Proof.
  intros Hoff Hb Hal.
  assert (Hbase : base = Z.shiftl (base / PGSIZE) 12).
  { rewrite Z.shiftl_mul_pow2 by lia. change (2 ^ 12) with PGSIZE.
    pose proof (Z.div_mod base PGSIZE ltac:(discriminate)). lia. }
  assert (Hdisj : Z.land (Z.shiftl (base / PGSIZE) 12) off = 0).
  2: { rewrite Hbase at 1. rewrite Z.lor_comm, <- Z.lxor_lor by exact Hdisj.
       rewrite <- Z.add_nocarry_lxor by exact Hdisj. rewrite <- Hbase. lia. }
  apply Z.bits_inj'. intros n Hn. rewrite Z.land_spec, Z.bits_0.
  destruct (Z.ltb_spec n 12).
  - rewrite Z.shiftl_spec_low by lia. reflexivity.
  - replace off with (off mod 2 ^ 12) by (apply Z.mod_small; exact Hoff).
    rewrite Z.mod_pow2_bits_high by lia. apply andb_false_r.
Qed.

(** ** Memory *)

Lemma load_bytes_S (m : memory) (a : Z) (n : nat) :
  load_bytes m a (S n) = m a :: load_bytes m (a + 1) n.
Proof.
  unfold load_bytes. cbn [seq map]. rewrite Z.add_0_r. f_equal.
  rewrite <- seq_shift, map_map. apply map_ext. intros i. f_equal. lia.
Qed.

Lemma store_bytes_outside (bs : list byte) :
  forall (m : memory) (a x : Z),
    x < a \/ a + Z.of_nat (length bs) <= x ->
    store_bytes m a bs x = m x.
Proof.
  induction bs as [|b bs IH]; intros m a x Hx; cbn [store_bytes].
  - reflexivity.
  - cbn [length] in Hx. rewrite IH by lia.
    destruct (Z.eqb_spec x a); [lia | reflexivity].
Qed.

Lemma load_store_bytes (bs : list byte) :
  forall (m : memory) (a : Z),
    load_bytes (store_bytes m a bs) a (length bs) = bs.
Proof.
  induction bs as [|b bs IH]; intros m a; cbn [store_bytes length].
  - reflexivity.
  - rewrite load_bytes_S, IH. f_equal.
    rewrite store_bytes_outside by lia.
    rewrite Z.eqb_refl. reflexivity.
Qed.

Lemma length_load_bytes (m : memory) (a : Z) (n : nat) :
  length (load_bytes m a n) = n.
Proof. unfold load_bytes. rewrite length_map, length_seq. reflexivity. Qed.

Lemma sizeof_nat (ty : int_type) :
  Z.of_nat (Z.to_nat (sizeof ty)) = sizeof ty.
Proof. destruct ty; reflexivity. Qed.

(** What is read back from where a value was assigned is its truncation to
    the width of the type. *)
Lemma load_assign (ty : int_type) (m : memory) (paddr val : Z) :
  le_combine (load_bytes (assign ty m paddr val) paddr (Z.to_nat (sizeof ty)))
  = val mod 2 ^ bits_of ty.
Proof.
  unfold assign.
  rewrite <- (length_le_split (Z.to_nat (sizeof ty)) val) at 2.
  rewrite load_store_bytes, le_combine_split.
  unfold bits_of. rewrite sizeof_nat, Z.mul_comm. reflexivity.
Qed.

Lemma assign_outside (ty : int_type) (m : memory) (paddr val x : Z) :
  x < paddr \/ paddr + sizeof ty <= x -> assign ty m paddr val x = m x.
Proof.
  intros H. unfold assign. apply store_bytes_outside.
  rewrite length_le_split, sizeof_nat. exact H.
Qed.

Lemma read_uint16_range (m : memory) (paddr : Z) :
  0 <= read_uint16 m paddr < 2 ^ 16.
Proof.
  unfold read_uint16, deref, interp. cbn [is_signed andb].
  pose proof (le_combine_bound (load_bytes m paddr (Z.to_nat (sizeof uint16)))) as H.
  rewrite length_load_bytes in H. exact H.
Qed.

(** ** The refill unit and the fast path: what they leave alone *)

Lemma bits_of_div8 (ty : int_type) : bits_of ty / 8 = sizeof ty.
Proof. destruct ty; reflexivity. Qed.

Lemma tlb_install_mem k idx tag base s : mem (tlb_install k idx tag base s) = mem s.
Proof. destruct k; reflexivity. Qed.

Lemma tlb_install_icache k idx tag base s :
  icache_tag (tlb_install k idx tag base s) = icache_tag s
  /\ icache_data (tlb_install k idx tag base s) = icache_data s
  /\ icache_func (tlb_install k idx tag base s) = icache_func s.
Proof. destruct k; repeat split. Qed.

Lemma refill_mem addr store fetch s :
  mem (final (refill addr store fetch s)) = mem s.
Proof.
  unfold refill. destruct (walk s addr) as [pte|]; [|reflexivity].
  destruct (Z.land pte _ =? 0); [reflexivity|].
  cbn [final]. apply tlb_install_mem.
Qed.

Lemma refill_raised addr store fetch s t :
  raised (refill addr store fetch s) = Some t ->
  t = page_fault (kind_of store fetch) \/ t = access_fault (kind_of store fetch).
Proof.
  unfold refill. destruct (walk s addr) as [pte|].
  - destruct (Z.land pte _ =? 0); cbn [raised]; intros H;
      [right; congruence | discriminate].
  - cbn [raised]. intros H. left. congruence.
Qed.

Lemma refill_throws_recorded addr store fetch s t s' :
  refill addr store fetch s = Throw t s' -> s' = with_badvaddr addr s.
Proof.
  unfold refill. destruct (walk s addr) as [pte|].
  - destruct (Z.land pte _ =? 0); intros H; [congruence | discriminate].
  - congruence.
Qed.

Lemma refill_icache addr store fetch s :
  let s' := final (refill addr store fetch s) in
  icache_tag s' = icache_tag s /\ icache_data s' = icache_data s
  /\ icache_func s' = icache_func s.
Proof.
  unfold refill. destruct (walk s addr) as [pte|]; [|repeat split].
  destruct (Z.land pte _ =? 0); [repeat split|].
  cbn [final]. apply tlb_install_icache.
Qed.

Lemma translate_cases addr store fetch s :
  translate addr store fetch s
  = if tlb_tag_of (kind_of store fetch) s (tlb_index addr) =? page_tag addr
    then Ok (Z.lor (Z.land addr (PGSIZE - 1)) (tlb_data s (tlb_index addr))) s
    else refill addr store fetch s.
Proof. unfold translate. destruct fetch, store; reflexivity. Qed.

Lemma translate_mem addr store fetch s :
  mem (final (translate addr store fetch s)) = mem s.
Proof.
  rewrite translate_cases. destruct (_ =? _); [reflexivity|].
  apply refill_mem.
Qed.

Lemma translate_raised addr store fetch s t :
  raised (translate addr store fetch s) = Some t -> is_misaligned t = false.
Proof.
  rewrite translate_cases. destruct (_ =? _); [discriminate|].
  intros H. apply refill_raised in H.
  destruct H as [-> | ->]; destruct (kind_of store fetch); reflexivity.
Qed.

Lemma translate_icache addr store fetch s :
  let s' := final (translate addr store fetch s) in
  icache_tag s' = icache_tag s /\ icache_data s' = icache_data s
  /\ icache_func s' = icache_func s.
Proof.
  rewrite translate_cases. destruct (_ =? _); [repeat split|].
  apply refill_icache.
Qed.

(** ** The accessors, case by case *)

Lemma load_func_misaligned ty addr s :
  addr mod sizeof ty <> 0 ->
  load_func ty addr s = Throw trap_load_address_misaligned (with_badvaddr addr s).
Proof.
  intros H. unfold load_func.
  destruct (Z.eqb_spec (addr mod sizeof ty) 0); [contradiction | reflexivity].
Qed.

Lemma load_func_aligned ty addr s :
  addr mod sizeof ty = 0 ->
  load_func ty addr s
  = match translate addr false false s with
    | Ok paddr s' => Ok (deref ty (mem s') paddr) s'
    | Throw t s' => Throw t s'
    end.
Proof.
  intros H. unfold load_func. rewrite H. cbn [Z.eqb negb].
  unfold bind. destruct (translate addr false false s); reflexivity.
Qed.

Lemma store_func_misaligned ty addr val s :
  addr mod sizeof ty <> 0 ->
  store_func ty addr val s
  = Throw trap_store_address_misaligned (with_badvaddr addr s).
Proof.
  intros H. unfold store_func.
  destruct (Z.eqb_spec (addr mod sizeof ty) 0); [contradiction | reflexivity].
Qed.

Lemma store_func_aligned ty addr val s :
  addr mod sizeof ty = 0 ->
  store_func ty addr val s
  = match translate addr true false s with
    | Ok paddr s' => Ok tt (with_mem (fun m => assign ty m paddr val) s')
    | Throw t s' => Throw t s'
    end.
Proof.
  intros H. unfold store_func. rewrite H. cbn [Z.eqb negb].
  unfold bind. destruct (translate addr true false s); reflexivity.
Qed.

Lemma translate_not_misaligned addr store fetch s :
  raises_misaligned (translate addr store fetch s) = false.
Proof.
  unfold raises_misaligned.
  destruct (raised (translate addr store fetch s)) as [t|] eqn:E; [|reflexivity].
  eapply translate_raised. exact E.
Qed.

(** ** The fast path *)

(** C6.  [translate] takes the slot [(addr >> PGSHIFT) mod TLB_ENTRIES],
    that is [(addr / PGSIZE) mod TLB_ENTRIES], and compares the tag that the
    array of the access kind holds there with the address cleared of its
    page-offset bits, [addr - addr mod PGSIZE].  When they are equal it
    returns the page-offset bits [addr mod PGSIZE] or-ed with the slot's
    cached page base, leaving the MMU as it was (and the or is a sum when the
    base is page aligned); otherwise the outcome is that of [refill]. *)
Theorem translate_fast_path (s : mmu_t) (addr : reg_t) (store fetch : bool) :
  0 <= addr < 2 ^ 64 ->
  let idx := (addr / PGSIZE) mod TLB_ENTRIES in
  let tag := tlb_tag_of (kind_of store fetch) s idx in
  (tag = addr - addr mod PGSIZE ->
     translate addr store fetch s
     = Ok (Z.lor (addr mod PGSIZE) (tlb_data s idx)) s
     /\ (0 <= tlb_data s idx -> tlb_data s idx mod PGSIZE = 0 ->
         translate addr store fetch s
         = Ok (tlb_data s idx + addr mod PGSIZE) s))
  /\ (tag <> addr - addr mod PGSIZE ->
        translate addr store fetch s = refill addr store fetch s).
Proof.
  intros Hr idx tag. subst idx tag.
  rewrite translate_cases. unfold tlb_index.
  rewrite shiftr_page, page_tag_in_range, page_offset_mod by exact Hr.
  split; intros H.
  - rewrite H, Z.eqb_refl. split; [reflexivity|].
    intros Hpos Hal. rewrite lor_offset_base, Z.add_comm; try assumption; try reflexivity.
    apply Z.mod_pos_bound. reflexivity.
  - destruct (Z.eqb_spec (tlb_tag_of (kind_of store fetch) s
                            ((addr / PGSIZE) mod TLB_ENTRIES))
                         (addr - addr mod PGSIZE)); [contradiction | reflexivity].
Qed.

Lemma translate_fast_path_witness :
  0 <= 4 < 2 ^ 64
  /\ translate 4 false false Example.ex_after_load
     = Ok 0x5004 Example.ex_after_load.
Proof.
  split; [lia|].
  pose proof (translate_fast_path Example.ex_after_load 4 false false
                ltac:(lia)) as [H _].
  assert (Htag : tlb_tag_of (kind_of false false) Example.ex_after_load
                   ((4 / PGSIZE) mod TLB_ENTRIES) = 4 - 4 mod PGSIZE)
    by (vm_compute; reflexivity).
  destruct (H Htag) as [Hhit _]. exact Hhit.
Defined.

(** ** Changing the page-table base *)



(** ** Alignment of loads and stores *)

(** C5.  [load_func] and [store_func] at a type of [w] bits raise a
    misaligned-access fault exactly when [addr mod (w/8)] is not zero; the
    fault is then the load one for a load and the store one for a store, and
    the state that the exception leaves behind has [addr] in [badvaddr] and is
    otherwise the state of the call. *)
Theorem load_store_alignment (ty : int_type) (addr val : Z) (s : mmu_t) :
  (raises_misaligned (load_func ty addr s) = true
     <-> addr mod (bits_of ty / 8) <> 0)
  /\ (raises_misaligned (store_func ty addr val s) = true
     <-> addr mod (bits_of ty / 8) <> 0)
  /\ (addr mod (bits_of ty / 8) <> 0 ->
      load_func ty addr s
      = Throw trap_load_address_misaligned (with_badvaddr addr s)
      /\ store_func ty addr val s
         = Throw trap_store_address_misaligned (with_badvaddr addr s)
      /\ get_badvaddr (final (load_func ty addr s)) = addr
      /\ get_badvaddr (final (store_func ty addr val s)) = addr).
Proof.
  rewrite bits_of_div8.
  destruct (Z.eq_dec (addr mod sizeof ty) 0) as [E|E].
  - rewrite load_func_aligned, store_func_aligned by exact E.
    pose proof (translate_not_misaligned addr false false s) as Hl.
    pose proof (translate_not_misaligned addr true false s) as Hs.
    unfold raises_misaligned in *.
    destruct (translate addr false false s), (translate addr true false s);
      cbn [raised] in *; repeat split; intros; try congruence; try contradiction.
  - rewrite load_func_misaligned, store_func_misaligned by exact E.
    repeat split; intros; try assumption; reflexivity.
Qed.

(** ** Stores complete or leave memory alone *)

(** C7.  A [store_func] that raises a fault, of whatever kind, leaves the
    memory buffer as it was.  One that returns has translated the address to
    a location [paddr] and changed the buffer by the assignment of the value
    there: reading the [w] bits at [paddr] back gives the value truncated to
    [w] bits, and every byte outside [paddr, paddr + w/8) is unchanged. *)
Theorem store_all_or_nothing (ty : int_type) (addr val : Z) (s : mmu_t) :
  match store_func ty addr val s with
  | Throw _ s' => mem s' = mem s
  | Ok _ s' =>
      exists paddr s1,
        translate addr true false s = Ok paddr s1
        /\ mem s' = assign ty (mem s) paddr val
        /\ le_combine (load_bytes (mem s') paddr (Z.to_nat (sizeof ty)))
           = val mod 2 ^ bits_of ty
        /\ forall x, x < paddr \/ paddr + sizeof ty <= x -> mem s' x = mem s x
  end.
Proof.
  destruct (Z.eq_dec (addr mod sizeof ty) 0) as [E|E].
  - rewrite store_func_aligned by exact E.
    pose proof (translate_mem addr true false s) as Hm.
    destruct (translate addr true false s) as [paddr s1 | t s1]; cbn [final] in Hm.
    + exists paddr, s1. cbn [with_mem mem]. rewrite Hm.
      split; [reflexivity|]. split; [reflexivity|].
      split; [apply load_assign | intros x Hx; apply assign_outside; exact Hx].
    + exact Hm.
  - rewrite store_func_misaligned by exact E. reflexivity.
Qed.

(** ** One page base per slot *)

(** C3, as stated, fails.  Virtual pages 0 and 256 are different pages that
    share TLB slot 0.  No state of the MMU holds at that slot a valid load
    entry that resolves address 4 into physical page 5 together with a valid
    store entry that resolves address 0x100004 into physical page 7: the two
    hits are built from the one [tlb_data] entry of the slot. *)
Lemma tlb_slot_single_base_counterexample :
  tlb_index 4 = tlb_index 0x100004
  /\ page_tag 4 <> page_tag 0x100004
  /\ ~ (exists s : mmu_t,
          tlb_hit Load s 4 /\ tlb_hit Store s 0x100004
          /\ translate 4 false false s = Ok 0x5004 s
          /\ translate 0x100004 true false s = Ok 0x7004 s).
Proof.
  split; [reflexivity|]. split; [vm_compute; discriminate|].
  intros (s & Hl & Hs & H1 & H2).
  rewrite translate_cases in H1, H2. unfold tlb_hit in Hl, Hs.
  cbn [kind_of] in H1, H2. rewrite Hl, Z.eqb_refl in H1.
  rewrite Hs, Z.eqb_refl in H2.
  change (Z.land 0x100004 (PGSIZE - 1)) with (Z.land 4 (PGSIZE - 1)) in H2.
  change (tlb_index 0x100004) with (tlb_index 4) in H2.
  congruence.
Qed.

(** C3, amended.  The three access kinds have a tag array each, but a slot
    has a single cached page base, [tlb_data] at its index, whatever the
    kind.  When the tags of two distinct kinds at one index both match, each
    the page of its address, both hits return the page offset of their
    address combined with that one base: the two kinds resolve into the same
    physical page, whichever kind the base was installed for. *)
Theorem tlb_kinds_share_base (s : mmu_t) (a1 a2 : reg_t)
    (store1 fetch1 store2 fetch2 : bool) :
  kind_of store1 fetch1 <> kind_of store2 fetch2 ->
  tlb_index a1 = tlb_index a2 ->
  tlb_hit (kind_of store1 fetch1) s a1 ->
  tlb_hit (kind_of store2 fetch2) s a2 ->
  let base := tlb_data s (tlb_index a1) in
  translate a1 store1 fetch1 s = Ok (Z.lor (Z.land a1 (PGSIZE - 1)) base) s
  /\ translate a2 store2 fetch2 s = Ok (Z.lor (Z.land a2 (PGSIZE - 1)) base) s
  /\ (0 <= base -> base mod PGSIZE = 0 ->
      translate a1 store1 fetch1 s = Ok (base + a1 mod PGSIZE) s
      /\ translate a2 store2 fetch2 s = Ok (base + a2 mod PGSIZE) s).
Proof.
  intros _ Hidx H1 H2 base. subst base.
  rewrite !translate_cases. unfold tlb_hit in H1, H2.
  rewrite H1, H2, !Z.eqb_refl, <- Hidx.
  split; [reflexivity|]. split; [reflexivity|].
  intros Hpos Hal. rewrite !page_offset_mod.
  rewrite !lor_offset_base by
    (assumption || (apply Z.mod_pos_bound; reflexivity)).
  rewrite !(Z.add_comm (_ mod PGSIZE)). split; reflexivity.
Qed.

Lemma tlb_kinds_share_base_witness :
  translate 0x1008 false false Example.ex_page1
  = Ok (tlb_data Example.ex_page1 (tlb_index 0x1008) + 0x1008 mod PGSIZE)
       Example.ex_page1
  /\ translate 0x1010 true false Example.ex_page1
     = Ok (tlb_data Example.ex_page1 (tlb_index 0x1008) + 0x1010 mod PGSIZE)
          Example.ex_page1.
Proof.
  assert (Hk : kind_of false false <> kind_of true false) by discriminate.
  assert (Hidx : tlb_index 0x1008 = tlb_index 0x1010) by reflexivity.
  assert (H1 : tlb_hit (kind_of false false) Example.ex_page1 0x1008)
    by (vm_compute; reflexivity).
  assert (H2 : tlb_hit (kind_of true false) Example.ex_page1 0x1010)
    by (vm_compute; reflexivity).
  pose proof (tlb_kinds_share_base Example.ex_page1 0x1008 0x1010
                false false true false Hk Hidx H1 H2) as (_ & _ & H).
  apply H.
  - vm_compute. discriminate.
  - vm_compute. reflexivity.
Defined.

(** ** No bypass for disabled virtual memory *)

(** C4, as stated, fails.  With virtual memory switched off after a load
    that filled load slot 0, [translate] still looks the address up in the
    TLB, hits, and resolves address 4 to 0x5004, not to 4. *)
Lemma translate_vm_disabled_counterexample :
  vm_enabled Example.ex_vm_off = false
  /\ translate 4 false false Example.ex_vm_off = Ok 0x5004 Example.ex_vm_off
  /\ 0x5004 <> 4.
Proof.
  split; [reflexivity|]. split; [vm_compute; reflexivity | discriminate].
Qed.

(** C4, amended.  [translate] has no case for disabled virtual memory.  With
    the flag off it still starts with the TLB lookup: on a tag match it
    returns the page-offset bits combined with the cached page base, and on a
    mismatch its outcome is that of [refill], which is called with the
    address and the access kind. *)
Theorem translate_vm_disabled (s : mmu_t) (addr : reg_t) (store fetch : bool) :
  vm_enabled s = false ->
  let idx := tlb_index addr in
  let tag := tlb_tag_of (kind_of store fetch) s idx in
  (tag = page_tag addr ->
     translate addr store fetch s
     = Ok (Z.lor (Z.land addr (PGSIZE - 1)) (tlb_data s idx)) s)
  /\ (tag <> page_tag addr ->
        translate addr store fetch s = refill addr store fetch s).
Proof.
  intros _ idx tag. subst idx tag. rewrite translate_cases.
  destruct (Z.eqb_spec (tlb_tag_of (kind_of store fetch) s (tlb_index addr))
                       (page_tag addr)); split; intros H;
    try contradiction; reflexivity.
Qed.

Lemma translate_vm_disabled_witness :
  vm_enabled (set_vm_enabled false Example.ex_mmu) = false
  /\ translate 4 false false (set_vm_enabled false Example.ex_mmu)
     = refill 4 false false (set_vm_enabled false Example.ex_mmu).
Proof.
  split; [reflexivity|].
  pose proof (translate_vm_disabled (set_vm_enabled false Example.ex_mmu)
                4 false false eq_refl) as [_ H].
  apply H. vm_compute. discriminate.
Defined.

(** ** Instruction fetch *)

(** Two half-words or-ed into a word are its low and high half. *)
Lemma concat_halves (lo hi : Z) :
  0 <= lo < 2 ^ 16 -> 0 <= hi < 2 ^ 16 ->
  Z.lor lo (wrap32 (Z.shiftl hi 16)) = lo + 2 ^ 16 * hi.
Proof.
  intros Hlo Hhi. unfold wrap32.
  rewrite Z.shiftl_mul_pow2 by lia. rewrite Z.mod_small by lia.
  assert (Hdisj : Z.land lo (hi * 2 ^ 16) = 0).
  { apply Z.bits_inj'. intros n Hn. rewrite Z.land_spec, Z.bits_0.
    destruct (Z.ltb_spec n 16).
    - rewrite Z.mul_pow2_bits_low by lia. apply andb_false_r.
    - replace lo with (lo mod 2 ^ 16) by (apply Z.mod_small; exact Hlo).
      rewrite Z.mod_pow2_bits_high by lia. reflexivity. }
  rewrite <- Z.lxor_lor, <- Z.add_nocarry_lxor by exact Hdisj. lia.
Qed.

Section FetchProperties.
Context {P : processor_t}.

(** The path for a fetch across a word boundary. *)
Lemma load_insn_rvc_path (s : mmu_t) (f : insn_func_t) (addr : reg_t) :
  RISCV_ENABLE_RVC = true -> addr mod 4 = 2 ->
  load_insn addr true (s, f)
  = match translate addr false true s with
    | Throw t s1 => Throw t (s1, f)
    | Ok addr_lo s1 =>
        let lo := read_uint16 (mem s1) addr_lo in
        let h := dispatch_table (lo mod DISPATCH_TABLE_SIZE) in
        if INSN_IS_RVC lo then Ok lo (s1, h)
        else
          match translate (wrap64 (addr + 2)) false true s1 with
          | Throw t s2 => Throw t (s2, h)
          | Ok addr_hi s2 =>
              Ok (lo + 2 ^ 16 * read_uint16 (mem s2) addr_hi) (s2, h)
          end
    end.
Proof.
  intros Hrvc Hmod. unfold load_insn. rewrite Hrvc, Hmod.
  cbn [Z.eqb Pos.eqb andb]. unfold bind, on_mmu, gets, set_func, ret.
  cbn [fst snd].
  destruct (translate addr false true s) as [addr_lo s1 | t s1];
    [|reflexivity].
  cbn [fst snd]. destruct (INSN_IS_RVC (read_uint16 (mem s1) addr_lo));
    cbn [negb fst snd]; [reflexivity|].
  destruct (translate (wrap64 (addr + 2)) false true s1) as [addr_hi s2 | t s2];
    cbn [fst snd]; [|reflexivity].
  rewrite concat_halves by apply read_uint16_range.
  reflexivity.
Qed.

(** The path through the instruction cache. *)
Lemma load_insn_icache_path (s : mmu_t) (f : insn_func_t) (addr : reg_t)
    (rvc : bool) :
  RISCV_ENABLE_RVC && ((addr mod 4 =? 2) && rvc) = false ->
  load_insn addr rvc (s, f)
  = let idx := (addr / sizeof_insn_t) mod ICACHE_ENTRIES in
    if icache_tag s idx =? addr then
      Ok (icache_data s idx) (s, icache_func s idx)
    else
      match translate addr false true s with
      | Throw t s1 => Throw t (s1, icache_func s idx)
      | Ok paddr s1 =>
          let insn := read_insn (mem s1) paddr in
          let h := dispatch_table (insn mod DISPATCH_TABLE_SIZE) in
          Ok insn
             (with_icache_func (fun a => upd a idx h)
                (with_icache_data (fun a => upd a idx insn)
                   (with_icache_tag (fun a => upd a idx addr) s1)), h)
      end.
Proof.
  intros Hpath. unfold load_insn. rewrite Hpath.
  unfold bind, on_mmu, gets, set_func, modify, ret. cbn [fst snd].
  cbn zeta.
  destruct (icache_tag s (addr / sizeof_insn_t mod ICACHE_ENTRIES) =? addr);
    cbn [fst snd]; [reflexivity|].
  destruct (translate addr false true s) as [paddr s1 | t s1];
    cbn [fst snd]; reflexivity.
Qed.

(** C10.  Whatever the address and the mode, a fault that [load_insn]
    raises is none of the misaligned-access faults: the function compares
    [addr mod 4] with 2 only to choose its path, and the traps it lets
    through are those of the translation. *)
Theorem load_insn_never_misaligned (s : mmu_t) (f : insn_func_t)
    (addr : reg_t) (rvc : bool) (t : trap_t) :
  raised (load_insn addr rvc (s, f)) = Some t -> is_misaligned t = false.
Proof.
  destruct (RISCV_ENABLE_RVC && ((addr mod 4 =? 2) && rvc)) eqn:Hpath.
  - apply andb_prop in Hpath as [Hrvc Hpath].
    apply andb_prop in Hpath as [Hmod ->]. apply Z.eqb_eq in Hmod.
    rewrite load_insn_rvc_path by assumption.
    pose proof (translate_raised addr false true s) as H1.
    destruct (translate addr false true s) as [addr_lo s1 | t1 s1];
      [|cbn [raised] in *; exact (H1 t)].
    cbn zeta. destruct (INSN_IS_RVC _); [discriminate|].
    pose proof (translate_raised (wrap64 (addr + 2)) false true s1) as H2.
    destruct (translate (wrap64 (addr + 2)) false true s1) as [addr_hi s2 | t2 s2];
      [discriminate | cbn [raised] in *; exact (H2 t)].
  - rewrite load_insn_icache_path by exact Hpath. cbn zeta.
    destruct (_ =? addr); [discriminate|].
    pose proof (translate_raised addr false true s) as H1.
    destruct (translate addr false true s) as [paddr s1 | t1 s1];
      [discriminate | cbn [raised] in *; exact (H1 t)].
Qed.

(** C8.  On the path through the instruction cache the handle cached at
    the slot is written to [func] before the tag is compared: on a hit
    [func] holds it, and on a miss whose translation raises a fault the
    fault leaves [func] holding it as well, whatever [func] held before. *)
Theorem load_insn_func_written_early (s s1 : mmu_t) (f : insn_func_t)
    (addr : reg_t) (rvc : bool) (t : trap_t) :
  RISCV_ENABLE_RVC && ((addr mod 4 =? 2) && rvc) = false ->
  let idx := (addr / sizeof_insn_t) mod ICACHE_ENTRIES in
  icache_tag s idx <> addr ->
  translate addr false true s = Throw t s1 ->
  load_insn addr rvc (s, f) = Throw t (s1, icache_func s idx).
Proof.
  intros Hpath idx Hmiss Htr. subst idx.
  rewrite load_insn_icache_path by exact Hpath. cbn zeta.
  destruct (Z.eqb_spec (icache_tag s (addr / sizeof_insn_t mod ICACHE_ENTRIES)) addr);
    [contradiction|].
  rewrite Htr. reflexivity.
Qed.

(** C9.  A fetch across a word boundary whose low half-word is a complete
    two-byte instruction returns that half-word zero-extended: the upper 16
    bits of the instruction returned are zero. *)
Theorem load_insn_rvc_zero_extended (s s1 : mmu_t) (f : insn_func_t)
    (addr : reg_t) (addr_lo : Z) :
  RISCV_ENABLE_RVC = true -> addr mod 4 = 2 ->
  translate addr false true s = Ok addr_lo s1 ->
  INSN_IS_RVC (read_uint16 (mem s1) addr_lo) = true ->
  exists insn f',
    load_insn addr true (s, f) = Ok insn (s1, f')
    /\ insn = read_uint16 (mem s1) addr_lo
    /\ 0 <= insn < 2 ^ 16
    /\ Z.shiftr insn 16 = 0.
Proof.
  intros Hrvc Hmod Htr Hshort.
  rewrite load_insn_rvc_path by assumption. rewrite Htr. cbn zeta.
  rewrite Hshort. eexists _, _. split; [reflexivity|].
  split; [reflexivity|].
  pose proof (read_uint16_range (mem s1) addr_lo) as Hr.
  split; [exact Hr|].
  rewrite Z.shiftr_div_pow2 by lia. apply Z.div_small. exact Hr.
Qed.

(** C1, amended.  A fetch in variable-length mode at an address with
    [addr mod 4 = 2] does not read or write the instruction cache.  It
    translates the low two bytes as a fetch and looks the decode handle up
    at once, from the low half-word alone; when that half-word is not a
    complete two-byte instruction it then translates [addr + 2] on its own
    and returns the two half-words concatenated.  The handle returned is the
    table entry at the low half-word modulo the table length, and it is
    already in [func] if the second translation raises a fault. *)
Theorem load_insn_across_boundary (s : mmu_t) (f : insn_func_t)
    (addr : reg_t) :
  RISCV_ENABLE_RVC = true -> addr mod 4 = 2 ->
  let o := load_insn addr true (s, f) in
  o = match translate addr false true s with
      | Throw t s1 => Throw t (s1, f)
      | Ok addr_lo s1 =>
          let lo := read_uint16 (mem s1) addr_lo in
          let h := dispatch_table (lo mod DISPATCH_TABLE_SIZE) in
          if INSN_IS_RVC lo then Ok lo (s1, h)
          else
            match translate (wrap64 (addr + 2)) false true s1 with
            | Throw t s2 => Throw t (s2, h)
            | Ok addr_hi s2 =>
                Ok (lo + 2 ^ 16 * read_uint16 (mem s2) addr_hi) (s2, h)
            end
      end
  /\ icache_tag (fst (final o)) = icache_tag s
  /\ icache_data (fst (final o)) = icache_data s
  /\ icache_func (fst (final o)) = icache_func s.
Proof.
  intros Hrvc Hmod o. subst o.
  rewrite load_insn_rvc_path by assumption. split; [reflexivity|].
  pose proof (translate_icache addr false true s) as H1. cbn zeta in H1.
  destruct (translate addr false true s) as [addr_lo s1 | t s1];
    cbn [final fst] in *; [|exact H1].
  cbn zeta. destruct (INSN_IS_RVC _); cbn [final fst]; [exact H1|].
  pose proof (translate_icache (wrap64 (addr + 2)) false true s1) as H2.
  cbn zeta in H2.
  destruct H1 as (T1 & D1 & F1).
  destruct (translate (wrap64 (addr + 2)) false true s1) as [addr_hi s2 | t s2];
    cbn [final fst] in *; destruct H2 as (T2 & D2 & F2);
    repeat split; congruence.
Qed.

(** When the table length divides [2 ^ 16], the entry at the low half-word
    is the entry at the whole instruction. *)
Lemma dispatch_low_half (lo hi : Z) :
  0 < DISPATCH_TABLE_SIZE -> 2 ^ 16 mod DISPATCH_TABLE_SIZE = 0 ->
  dispatch_table ((lo + 2 ^ 16 * hi) mod DISPATCH_TABLE_SIZE)
  = dispatch_table (lo mod DISPATCH_TABLE_SIZE).
Proof.
  intros Hpos Hdiv. f_equal.
  apply Z.mod_divide in Hdiv; [|lia]. destruct Hdiv as [q Hq].
  rewrite Hq. replace (lo + q * DISPATCH_TABLE_SIZE * hi)
    with (lo + (q * hi) * DISPATCH_TABLE_SIZE) by lia.
  apply Z.mod_add. lia.
Qed.

End FetchProperties.

(** ** The fetch path on the example machine *)

(** C1, as stated, fails.  The four-byte instruction at virtual address
    0x1ffe has its low half-word 0x0003 at the end of a mapped page and its
    high half-word on an unmapped page.  The fetch raises the page fault of
    the second translation, so no instruction was ever concatenated; yet
    [func], which held 0, holds the handle looked up from the low half-word:
    the lookup came before the second translation, not after it. *)
Lemma load_insn_lookup_order_counterexample :
  let o := load_insn (P := Example.ex_processor) 0x1ffe true (Example.ex_mmu, 0) in
  0x1ffe mod 4 = 2
  /\ (exists s1, translate 0x1ffe false true Example.ex_mmu = Ok 0x6ffe s1
                 /\ read_uint16 (mem s1) 0x6ffe = 0x0003)
  /\ INSN_IS_RVC (processor_t := Example.ex_processor) 0x0003 = false
  /\ raised (translate 0x2000 false true Example.ex_mmu)
     = Some trap_instruction_page_fault
  /\ raised o = Some trap_instruction_page_fault
  /\ get_badvaddr (fst (final o)) = 0x2000
  /\ snd (final o) = dispatch_table (processor_t := Example.ex_processor) 0x0003
  /\ snd (final o) <> 0.
Proof.
  cbn zeta. split; [reflexivity|]. split.
  - eexists. split; vm_compute; reflexivity.
  - repeat split; try (vm_compute; reflexivity). vm_compute. discriminate.
Qed.

Lemma load_insn_across_boundary_witness :
  icache_tag
    (fst (final (load_insn (P := Example.ex_processor) 0x1ffe true
                   (Example.ex_mmu, 0))))
  = icache_tag Example.ex_mmu.
Proof.
  pose proof (load_insn_across_boundary (P := Example.ex_processor)
                Example.ex_mmu 0 0x1ffe eq_refl eq_refl) as (_ & H & _).
  exact H.
Defined.

Lemma load_insn_func_written_early_witness :
  icache_tag Example.ex_remapped 0 <> 0x1000
  /\ icache_func Example.ex_remapped 0 = 0x1013
  /\ load_insn (P := Example.ex_processor) 0x1000 false (Example.ex_remapped, 7)
     = Throw trap_instruction_page_fault
         (with_badvaddr 0x1000 Example.ex_remapped, 0x1013).
Proof.
  assert (Hmiss : icache_tag Example.ex_remapped
                    ((0x1000 / sizeof_insn_t) mod ICACHE_ENTRIES) <> 0x1000)
    by (vm_compute; discriminate).
  split; [exact Hmiss|]. split; [vm_compute; reflexivity|].
  apply (load_insn_func_written_early (P := Example.ex_processor)
           Example.ex_remapped (with_badvaddr 0x1000 Example.ex_remapped)
           7 0x1000 false trap_instruction_page_fault eq_refl Hmiss).
  vm_compute. reflexivity.
Defined.

Lemma load_insn_rvc_zero_extended_witness :
  exists insn f',
    load_insn (P := Example.ex_processor) 0x1002 true (Example.ex_mmu, 0)
    = Ok insn (final (translate 0x1002 false true Example.ex_mmu), f')
    /\ insn = read_uint16
                (mem (final (translate 0x1002 false true Example.ex_mmu))) 0x6002
    /\ 0 <= insn < 2 ^ 16
    /\ Z.shiftr insn 16 = 0.
Proof.
  apply (load_insn_rvc_zero_extended (P := Example.ex_processor)
           Example.ex_mmu _ 0 0x1002 0x6002 eq_refl eq_refl).
  - vm_compute. reflexivity.
  - vm_compute. reflexivity.
Defined.

Lemma load_insn_never_misaligned_witness :
  raised (load_insn (P := Example.ex_processor) 0x2001 false (Example.ex_mmu, 0))
  = Some trap_instruction_page_fault
  /\ is_misaligned trap_instruction_page_fault = false.
Proof.
  assert (H : raised (load_insn (P := Example.ex_processor) 0x2001 false
                        (Example.ex_mmu, 0))
              = Some trap_instruction_page_fault)
    by (vm_compute; reflexivity).
  split; [exact H|].
  exact (load_insn_never_misaligned (P := Example.ex_processor)
           Example.ex_mmu 0 0x2001 false trap_instruction_page_fault H).
Defined.

(** ** The accessors on the example machine *)

(** Virtual page 0 is mapped for the supervisor only: an unprivileged load
    of the word at address 4 is an access violation at address 4. *)
Example user_load_is_refused :
  load_uint32 4 Example.ex_mmu
  = Throw trap_load_access_fault (with_badvaddr 4 Example.ex_mmu).
Proof. vm_compute. reflexivity. Qed.

(** The same load by the supervisor returns the word at physical offset
    [5 * 4096 + 4]. *)
Example supervisor_load_succeeds :
  returned (load_uint32 4 Example.ex_sup) = Some 0x11223344
  /\ deref uint32 Example.ex_mem (5 * 4096 + 4) = 0x11223344.
Proof. split; vm_compute; reflexivity. Qed.

(** A byte stored is the byte loaded, also across a flush of the TLB, and a
    signed load sign-extends it. *)
Example store_then_load :
  returned ((store_uint8 0x1001 0xab ;; modify flush_tlb ;; load_uint8 0x1001)
              Example.ex_mmu) = Some 0xab
  /\ returned ((store_uint8 0x1001 0xab ;; load_int8 0x1001) Example.ex_mmu)
     = Some (0xab - 256).
Proof. split; vm_compute; reflexivity. Qed.

(** A load of a word at an address that is not a multiple of 4 is a
    misaligned load at that address. *)
Example misaligned_load :
  load_uint32 0x1001 Example.ex_mmu
  = Throw trap_load_address_misaligned (with_badvaddr 0x1001 Example.ex_mmu).
Proof. vm_compute. reflexivity. Qed.

(** A fetch through the instruction cache fills the slot, and the next fetch
    of the address is served from it. *)
Example fetch_fills_icache :
  returned (load_insn (P := Example.ex_processor) 0x1000 false (Example.ex_mmu, 0))
  = Some 0x00010013
  /\ icache_tag Example.ex_fetched 0 = 0x1000
  /\ returned (load_insn (P := Example.ex_processor) 0x1000 false
                 (Example.ex_fetched, 0)) = Some 0x00010013
  /\ snd (final (load_insn (P := Example.ex_processor) 0x1000 false
                   (Example.ex_fetched, 0))) = 0x1013.
Proof. repeat split; vm_compute; reflexivity. Qed.

(** * Further properties of the accessors and the caches *)

(** ** More on the fast path *)

Lemma translate_hit (k : access_kind) (s : mmu_t) (addr : reg_t)
    (store fetch : bool) :
  kind_of store fetch = k -> tlb_hit k s addr ->
  translate addr store fetch s = Ok (tlb_location s addr) s.
Proof.
  intros <- H. rewrite translate_cases. unfold tlb_hit in H.
  rewrite H, Z.eqb_refl. reflexivity.
Qed.

Lemma tlb_hit_with_mem (k : access_kind) (g : memory -> memory) (s : mmu_t)
    (addr : reg_t) :
  tlb_hit k s addr -> tlb_hit k (with_mem g s) addr.
Proof. unfold tlb_hit. destruct k; exact (fun H => H). Qed.

Lemma deref_cast (ty1 ty2 : int_type) (m : memory) (p val : Z) :
  sizeof ty1 = sizeof ty2 ->
  deref ty2 (assign ty1 m p val) p = interp ty2 (val mod 2 ^ bits_of ty1).
Proof.
  intros Hsz. unfold deref. rewrite <- Hsz, load_assign. reflexivity.
Qed.

(** X1.  When the store tag and the load tag of an address's slot both
    match its page, an aligned store of [ty1] followed by a load of a type
    [ty2] of the same size at the same address returns the value stored,
    truncated to the width and read at [ty2]'s signedness; the MMU is changed
    by the assignment at the resolved location and by nothing else. *)
Theorem store_then_load_same_address (ty1 ty2 : int_type) (s : mmu_t)
    (addr : reg_t) (val : Z) :
  sizeof ty1 = sizeof ty2 ->
  addr mod sizeof ty1 = 0 ->
  tlb_hit Store s addr -> tlb_hit Load s addr ->
  (store_func ty1 addr val ;; load_func ty2 addr) s
  = Ok (interp ty2 (val mod 2 ^ bits_of ty1))
       (with_mem (fun m => assign ty1 m (tlb_location s addr) val) s).
Proof.
  intros Hsz Hal Hst Hld. unfold bind.
  rewrite store_func_aligned by exact Hal.
  rewrite (translate_hit Store) by (reflexivity || exact Hst).
  rewrite load_func_aligned by (rewrite <- Hsz; exact Hal).
  rewrite (translate_hit Load)
    by (reflexivity || (apply tlb_hit_with_mem; exact Hld)).
  cbn [with_mem mem]. unfold tlb_location at 1. cbn [with_mem tlb_data].
  fold (tlb_location s addr). rewrite deref_cast by exact Hsz. reflexivity.
Qed.

Lemma load_bytes_ext (m1 m2 : memory) (a : Z) (n : nat) :
  (forall x, a <= x < a + Z.of_nat n -> m1 x = m2 x) ->
  load_bytes m1 a n = load_bytes m2 a n.
Proof.
  intros H. unfold load_bytes. apply map_ext_in. intros i Hi.
  apply in_seq in Hi. apply H. lia.
Qed.

Lemma deref_assign_disjoint (ty1 ty2 : int_type) (m : memory) (p1 p2 val : Z) :
  p2 + sizeof ty2 <= p1 \/ p1 + sizeof ty1 <= p2 ->
  deref ty2 (assign ty1 m p1 val) p2 = deref ty2 m p2.
Proof.
  intros H. unfold deref. f_equal. f_equal. apply load_bytes_ext.
  intros x Hx. rewrite sizeof_nat in Hx. apply assign_outside. lia.
Qed.

(** X2.  A store does not disturb a load of a location it does not overlap:
    when both accesses hit the TLB and the bytes they resolve to are
    disjoint, the load after the store returns what the load alone
    returns. *)
Theorem store_leaves_other_locations (ty1 ty2 : int_type) (s : mmu_t)
    (a1 a2 : reg_t) (val : Z) :
  a1 mod sizeof ty1 = 0 -> a2 mod sizeof ty2 = 0 ->
  tlb_hit Store s a1 -> tlb_hit Load s a2 ->
  tlb_location s a2 + sizeof ty2 <= tlb_location s a1
  \/ tlb_location s a1 + sizeof ty1 <= tlb_location s a2 ->
  returned ((store_func ty1 a1 val ;; load_func ty2 a2) s)
  = returned (load_func ty2 a2 s).
Proof.
  intros Hal1 Hal2 Hst Hld Hdisj. unfold bind.
  rewrite store_func_aligned by exact Hal1.
  rewrite (translate_hit Store) by (reflexivity || exact Hst).
  rewrite !load_func_aligned by exact Hal2.
  rewrite !(translate_hit Load)
    by (reflexivity || exact Hld || (apply tlb_hit_with_mem; exact Hld)).
  cbn [returned with_mem mem]. unfold tlb_location at 1. cbn [with_mem tlb_data].
  fold (tlb_location s a2). rewrite deref_assign_disjoint by exact Hdisj.
  reflexivity.
Qed.

Lemma deref_unsigned_range (ty : int_type) (m : memory) (p : Z) :
  0 <= le_combine (load_bytes m p (Z.to_nat (sizeof ty))) < 2 ^ bits_of ty.
Proof.
  pose proof (le_combine_bound (load_bytes m p (Z.to_nat (sizeof ty)))) as H.
  rewrite length_load_bytes in H. unfold bits_of.
  rewrite sizeof_nat in H. exact H.
Qed.

Lemma interp_unsigned (ty : int_type) (u : Z) :
  is_signed ty = false -> interp ty u = u.
Proof. intros H. unfold interp. rewrite H. reflexivity. Qed.

Lemma interp_signed (ty : int_type) (u : Z) :
  is_signed ty = true -> 0 <= u < 2 ^ bits_of ty ->
  - 2 ^ (bits_of ty - 1) <= interp ty u < 2 ^ (bits_of ty - 1)
  /\ interp ty u mod 2 ^ bits_of ty = u.
Proof.
  intros Hs Hu. unfold interp. rewrite Hs. cbn [andb].
  assert (Hpow : 2 ^ bits_of ty = 2 * 2 ^ (bits_of ty - 1)).
  { rewrite <- Z.pow_succ_r by (destruct ty; discriminate).
    f_equal. lia. }
  destruct (Z.leb_spec (2 ^ (bits_of ty - 1)) u).
  - split; [lia|].
    replace (u - 2 ^ bits_of ty) with (u + (-1) * 2 ^ bits_of ty) by lia.
    rewrite Z.mod_add by lia. apply Z.mod_small. exact Hu.
  - split; [lia|]. apply Z.mod_small. exact Hu.
Qed.

(** X3.  The signed and the unsigned load of one width, at the same address
    from the same state, fault alike or succeed alike and leave the same
    state; when they succeed the unsigned value lies in [0, 2^w), the signed
    value in [-2^(w-1), 2^(w-1)), and the two are congruent modulo [2^w]. *)
Theorem load_signed_unsigned_agree (tyu tys : int_type) (s : mmu_t)
    (addr : reg_t) :
  sizeof tyu = sizeof tys -> is_signed tyu = false -> is_signed tys = true ->
  match load_func tyu addr s, load_func tys addr s with
  | Ok vu su, Ok vs ss =>
      su = ss
      /\ 0 <= vu < 2 ^ bits_of tyu
      /\ - 2 ^ (bits_of tys - 1) <= vs < 2 ^ (bits_of tys - 1)
      /\ vs mod 2 ^ bits_of tys = vu
  | Throw tu su, Throw ts ss => tu = ts /\ su = ss
  | _, _ => False
  end.
Proof.
  intros Hsz Hu Hs.
  assert (Hbits : bits_of tyu = bits_of tys) by (unfold bits_of; congruence).
  destruct (Z.eq_dec (addr mod sizeof tyu) 0) as [E|E].
  - rewrite load_func_aligned by exact E.
    rewrite load_func_aligned by (rewrite <- Hsz; exact E).
    destruct (translate addr false false s) as [p s1 | t s1]; [|split; reflexivity].
    unfold deref. rewrite <- Hsz. rewrite interp_unsigned by exact Hu.
    pose proof (deref_unsigned_range tyu (mem s1) p) as Hr.
    split; [reflexivity|]. split; [exact Hr|].
    apply interp_signed; [exact Hs | rewrite <- Hbits; exact Hr].
  - rewrite load_func_misaligned by exact E.
    rewrite load_func_misaligned by (rewrite <- Hsz; exact E).
    split; reflexivity.
Qed.

(** X4.  [set_supervisor] and [set_vm_enabled] flush nothing, and a TLB hit
    checks nothing but the tag: whatever the two flags are set to, an address
    that hit before still hits and resolves to the same location. *)
Theorem tlb_hit_ignores_mode (s : mmu_t) (addr : reg_t) (store fetch : bool)
    (sup en : bool) :
  tlb_hit (kind_of store fetch) s addr ->
  translate addr store fetch (set_supervisor sup (set_vm_enabled en s))
  = Ok (tlb_location s addr) (set_supervisor sup (set_vm_enabled en s)).
Proof.
  intros H.
  rewrite (translate_hit (kind_of store fetch)); [reflexivity | reflexivity |].
  unfold tlb_hit in *. destruct (kind_of store fetch); exact H.
Qed.

Lemma page_tag_same_page (a1 a2 : reg_t) :
  0 <= a1 < 2 ^ 64 -> 0 <= a2 < 2 ^ 64 ->
  page_tag a1 = page_tag a2 -> a1 / PGSIZE = a2 / PGSIZE.
Proof.
  intros H1 H2. rewrite !page_tag_in_range by assumption.
  pose proof (Z.div_mod a1 PGSIZE ltac:(discriminate)).
  pose proof (Z.div_mod a2 PGSIZE ltac:(discriminate)).
  change PGSIZE with 4096 in *. lia.
Qed.

(** X5.  The TLB never hits for the wrong page: while a slot's tag matches
    one page, an address of another page that shares the slot misses and
    goes to [refill]. *)
Theorem tlb_conflict_misses (s : mmu_t) (a1 a2 : reg_t) (store fetch : bool) :
  0 <= a1 < 2 ^ 64 -> 0 <= a2 < 2 ^ 64 ->
  tlb_hit (kind_of store fetch) s a1 ->
  tlb_index a1 = tlb_index a2 ->
  a1 / PGSIZE <> a2 / PGSIZE ->
  translate a2 store fetch s = refill a2 store fetch s.
Proof.
  intros H1 H2 Hhit Hidx Hpage. rewrite translate_cases, <- Hidx.
  unfold tlb_hit in Hhit. rewrite Hhit.
  destruct (Z.eqb_spec (page_tag a1) (page_tag a2)) as [E|E]; [|reflexivity].
  exfalso. apply Hpage. apply page_tag_same_page; assumption.
Qed.

(** The slot indices that [translate] and [load_insn] compute are
    within the bounds of the 256-element arrays, for every address. *)
Lemma cache_indices_in_bounds (addr : reg_t) :
  0 <= Z.shiftr addr PGSHIFT mod TLB_ENTRIES < TLB_ENTRIES
  /\ 0 <= (addr / sizeof_insn_t) mod ICACHE_ENTRIES < ICACHE_ENTRIES.
Proof. split; apply Z.mod_pos_bound; reflexivity. Qed.

(** ** More on the instruction cache *)

Lemma store_func_icache (ty : int_type) (addr val : Z) (s : mmu_t) :
  let s' := final (store_func ty addr val s) in
  icache_tag s' = icache_tag s /\ icache_data s' = icache_data s
  /\ icache_func s' = icache_func s.
Proof.
  destruct (Z.eq_dec (addr mod sizeof ty) 0) as [E|E].
  - rewrite store_func_aligned by exact E.
    pose proof (translate_icache addr true false s) as H.
    destruct (translate addr true false s); exact H.
  - rewrite store_func_misaligned by exact E. repeat split.
Qed.

Lemma load_func_icache (ty : int_type) (addr : Z) (s : mmu_t) :
  let s' := final (load_func ty addr s) in
  icache_tag s' = icache_tag s /\ icache_data s' = icache_data s
  /\ icache_func s' = icache_func s.
Proof.
  destruct (Z.eq_dec (addr mod sizeof ty) 0) as [E|E].
  - rewrite load_func_aligned by exact E.
    pose proof (translate_icache addr false false s) as H.
    destruct (translate addr false false s); exact H.
  - rewrite load_func_misaligned by exact E. repeat split.
Qed.

Section MoreFetch.
Context {P : processor_t}.

Lemma load_insn_hit (s : mmu_t) (f : insn_func_t) (addr : reg_t) (rvc : bool) :
  across_boundary addr rvc = false -> icache_hit s addr ->
  load_insn addr rvc (s, f)
  = Ok (icache_data s (icache_index addr)) (s, icache_func s (icache_index addr)).
Proof.
  intros Hpath Hhit. rewrite load_insn_icache_path by exact Hpath. cbn zeta.
  unfold icache_hit, icache_index in Hhit. rewrite Hhit, Z.eqb_refl.
  reflexivity.
Qed.

(** Whatever single word every instruction-cache tag holds, the fetch of
    that word as an address is served from the cache. *)
Lemma icache_uniform_tag_is_served (s : mmu_t) (f : insn_func_t) (v : reg_t) :
  (forall i, icache_tag s i = v) ->
  load_insn v false (s, f)
  = Ok (icache_data s (icache_index v)) (s, icache_func s (icache_index v)).
Proof.
  intros H. apply load_insn_hit.
  - unfold across_boundary. rewrite !andb_false_r. reflexivity.
  - apply H.
Qed.

Lemma load_insn_rvc_icache (s : mmu_t) (f : insn_func_t) (addr : reg_t)
    (rvc : bool) :
  across_boundary addr rvc = true ->
  let s' := fst (final (load_insn addr rvc (s, f))) in
  icache_tag s' = icache_tag s /\ icache_data s' = icache_data s
  /\ icache_func s' = icache_func s.
Proof.
  intros Hpath. unfold across_boundary in Hpath.
  apply andb_prop in Hpath as [Hrvc Hpath].
  apply andb_prop in Hpath as [Hmod ->]. apply Z.eqb_eq in Hmod.
  rewrite load_insn_rvc_path by assumption.
  pose proof (translate_icache addr false true s) as H1. cbn zeta in H1.
  destruct (translate addr false true s) as [addr_lo s1 | t s1];
    cbn [final fst] in *; [|exact H1].
  cbn zeta. destruct (INSN_IS_RVC _); cbn [final fst]; [exact H1|].
  pose proof (translate_icache (wrap64 (addr + 2)) false true s1) as H2.
  cbn zeta in H2. destruct H1 as (T1 & D1 & F1).
  destruct (translate (wrap64 (addr + 2)) false true s1) as [addr_hi s2 | t s2];
    cbn [final fst] in *; destruct H2 as (T2 & D2 & F2);
    repeat split; congruence.
Qed.

(** X6.  A fetch through the instruction cache that succeeded can be
    repeated: from the state it left, fetching the address again returns the
    same instruction and the same handle and changes nothing.  The slot then
    belongs to that address alone: no other address of the slot hits. *)
Theorem fetch_is_repeatable (s s' : mmu_t) (f f' h : insn_func_t)
    (addr : reg_t) (rvc : bool) (insn : insn_t) :
  across_boundary addr rvc = false ->
  load_insn addr rvc (s, f) = Ok insn (s', h) ->
  load_insn addr rvc (s', f') = Ok insn (s', h)
  /\ forall other, icache_index other = icache_index addr -> other <> addr ->
       ~ icache_hit s' other.
Proof.
  intros Hpath Hfetch.
  assert (Hslot : icache_hit s' addr
                  /\ icache_data s' (icache_index addr) = insn
                  /\ icache_func s' (icache_index addr) = h).
  { rewrite load_insn_icache_path in Hfetch by exact Hpath. cbn zeta in Hfetch.
    fold (icache_index addr) in Hfetch. unfold icache_hit.
    destruct (Z.eqb_spec (icache_tag s (icache_index addr)) addr) as [E|E].
    - injection Hfetch as <- <- <-. repeat split. exact E.
    - destruct (translate addr false true s) as [paddr s1 | t s1];
        [|discriminate].
      injection Hfetch as <- <- <-.
      cbn. unfold upd. rewrite Z.eqb_refl. repeat split. }
  destruct Hslot as (Hhit & Hdata & Hfunc). split.
  - rewrite load_insn_hit by assumption. rewrite Hdata, Hfunc. reflexivity.
  - intros other Hidx Hne Hother. unfold icache_hit in *.
    rewrite Hidx, Hhit in Hother. congruence.
Qed.

Lemma icache_decoded_ext (s s' : mmu_t) :
  icache_tag s' = icache_tag s -> icache_data s' = icache_data s ->
  icache_func s' = icache_func s -> icache_decoded s -> icache_decoded s'.
Proof.
  intros Ht Hd Hf H pc Hpc Hhit. unfold icache_hit in Hhit.
  rewrite Ht in Hhit. rewrite Hd, Hf. apply H; assumption.
Qed.

(** X7.  If every instruction-cache entry that an even address hits holds
    the dispatch-table entry of its instruction bits, this is still so after
    a fetch, a load or a store, whether it succeeded or raised a fault. *)
Theorem icache_decoded_preserved (s : mmu_t) (f : insn_func_t) (addr : reg_t)
    (rvc : bool) (ty : int_type) (a v : Z) :
  icache_decoded s ->
  icache_decoded (fst (final (load_insn addr rvc (s, f))))
  /\ icache_decoded (final (load_func ty a s))
  /\ icache_decoded (final (store_func ty a v s)).
Proof.
  intros Hinv. split; [|split].
  - destruct (across_boundary addr rvc) eqn:Hpath.
    + pose proof (load_insn_rvc_icache s f addr rvc Hpath) as (T & D & F).
      exact (icache_decoded_ext _ _ T D F Hinv).
    + rewrite load_insn_icache_path by exact Hpath. cbn zeta.
      fold (icache_index addr).
      destruct (icache_tag s (icache_index addr) =? addr); [exact Hinv|].
      pose proof (translate_icache addr false true s) as (T & D & F).
      destruct (translate addr false true s) as [paddr s1 | t s1];
        cbn [final fst] in *;
        [|exact (icache_decoded_ext _ _ T D F Hinv)].
      intros pc Hpc Hhit. unfold icache_hit in Hhit. cbn in Hhit |- *.
      unfold upd in *.
      destruct (Z.eqb_spec (icache_index pc) (icache_index addr)) as [E|E];
        [reflexivity|].
      rewrite D, F. apply Hinv; [exact Hpc|]. unfold icache_hit.
      rewrite <- T. exact Hhit.
  - pose proof (load_func_icache ty a s) as (T & D & F).
    exact (icache_decoded_ext _ _ T D F Hinv).
  - pose proof (store_func_icache ty a v s) as (T & D & F).
    exact (icache_decoded_ext _ _ T D F Hinv).
Qed.

(** X8.  Under that invariant, a fetch at an even address through the
    instruction cache, hit or miss, returns with the instruction the handle
    that the dispatch table holds for its bits. *)
Theorem fetch_handle_matches_bits (s s' : mmu_t) (f h : insn_func_t)
    (addr : reg_t) (rvc : bool) (insn : insn_t) :
  icache_decoded s -> addr mod 2 = 0 -> across_boundary addr rvc = false ->
  load_insn addr rvc (s, f) = Ok insn (s', h) ->
  h = dispatch_table (insn mod DISPATCH_TABLE_SIZE).
Proof.
  intros Hinv Heven Hpath Hfetch.
  rewrite load_insn_icache_path in Hfetch by exact Hpath. cbn zeta in Hfetch.
  fold (icache_index addr) in Hfetch.
  destruct (Z.eqb_spec (icache_tag s (icache_index addr)) addr) as [E|E].
  - injection Hfetch as <- <- <-. apply Hinv; assumption.
  - destruct (translate addr false true s) as [paddr s1 | t s1]; [|discriminate].
    injection Hfetch as <- <- <-. reflexivity.
Qed.

(** X9.  A store does not invalidate the instruction cache: after any
    successful store, also one that overwrites the instruction's bytes, a
    fetch of an address that hit before still hits and returns the
    instruction and the handle cached before the store. *)
Theorem store_keeps_cached_instruction (s s' : mmu_t) (f : insn_func_t)
    (addr : reg_t) (rvc : bool) (ty : int_type) (a v : Z) :
  across_boundary addr rvc = false -> icache_hit s addr ->
  store_func ty a v s = Ok tt s' ->
  load_insn addr rvc (s', f)
  = Ok (icache_data s (icache_index addr))
       (s', icache_func s (icache_index addr)).
Proof.
  intros Hpath Hhit Hstore.
  pose proof (store_func_icache ty a v s) as (T & D & F).
  rewrite Hstore in T, D, F. cbn [final] in T, D, F.
  rewrite load_insn_hit; [rewrite D, F; reflexivity | exact Hpath |].
  unfold icache_hit in *. rewrite T. exact Hhit.
Qed.

(** X10.  A cached instruction survives other fetches: after a fetch that
    goes across a word boundary, or through the cache at another slot,
    whether it succeeded or not, the address that hit before still hits and
    returns the same instruction and handle. *)
Theorem icache_entry_survives_other_fetch (s : mmu_t) (f f' : insn_func_t)
    (addr1 addr2 : reg_t) (rvc1 rvc2 : bool) :
  across_boundary addr1 rvc1 = false -> icache_hit s addr1 ->
  across_boundary addr2 rvc2 = true
  \/ icache_index addr2 <> icache_index addr1 ->
  let s2 := fst (final (load_insn addr2 rvc2 (s, f))) in
  load_insn addr1 rvc1 (s2, f')
  = Ok (icache_data s (icache_index addr1))
       (s2, icache_func s (icache_index addr1)).
Proof.
  intros Hpath1 Hhit Hother s2.
  assert (Hkeep : icache_tag s2 (icache_index addr1) = icache_tag s (icache_index addr1)
                  /\ icache_data s2 (icache_index addr1) = icache_data s (icache_index addr1)
                  /\ icache_func s2 (icache_index addr1) = icache_func s (icache_index addr1)).
  { subst s2. destruct (across_boundary addr2 rvc2) eqn:Hpath2.
    - pose proof (load_insn_rvc_icache s f addr2 rvc2 Hpath2) as (T & D & F).
      cbn zeta in T, D, F. rewrite T, D, F. repeat split.
    - destruct Hother as [Hother | Hidx]; [discriminate|].
      rewrite load_insn_icache_path by exact Hpath2. cbn zeta.
      fold (icache_index addr2).
      destruct (icache_tag s (icache_index addr2) =? addr2); [repeat split|].
      pose proof (translate_icache addr2 false true s) as (T & D & F).
      destruct (translate addr2 false true s) as [paddr s1 | t s1];
        cbn [final fst] in *; [|rewrite T, D, F; repeat split].
      cbn. unfold upd.
      destruct (Z.eqb_spec (icache_index addr1) (icache_index addr2)) as [E|E];
        [congruence|].
      rewrite T, D, F. repeat split. }
  destruct Hkeep as (T & D & F).
  rewrite load_insn_hit; [rewrite D, F; reflexivity | exact Hpath1 |].
  unfold icache_hit in *. rewrite T. exact Hhit.
Qed.

(** X11.  The [rvc] argument matters only in a build with
    [RISCV_ENABLE_RVC] and at an address with [addr mod 4 = 2]; otherwise the
    fetch is the same with and without it. *)
Theorem rvc_flag_ignored (x : fetch_state) (addr : reg_t) :
  RISCV_ENABLE_RVC = false \/ addr mod 4 <> 2 ->
  load_insn addr true x = load_insn addr false x.
Proof.
  intros H. destruct x as [s f].
  assert (Ht : across_boundary addr true = false).
  { unfold across_boundary. destruct H as [-> | H]; [reflexivity|].
    destruct (Z.eqb_spec (addr mod 4) 2); [contradiction|].
    apply andb_false_r. }
  assert (Hf : across_boundary addr false = false).
  { unfold across_boundary. rewrite !andb_false_r. reflexivity. }
  rewrite !load_insn_icache_path by assumption. reflexivity.
Qed.

End MoreFetch.

(** ** A fetch across a word boundary inside a page *)

Lemma tlb_location_sum (s : mmu_t) (addr : reg_t) :
  0 <= tlb_data s (tlb_index addr) ->
  tlb_data s (tlb_index addr) mod PGSIZE = 0 ->
  tlb_location s addr = tlb_data s (tlb_index addr) + addr mod PGSIZE.
Proof.
  intros Hpos Hal. unfold tlb_location.
  rewrite page_offset_mod, lor_offset_base, Z.add_comm; try assumption.
  - reflexivity.
  - apply Z.mod_pos_bound. reflexivity.
Qed.

Lemma load_bytes_app (m : memory) (a : Z) (n1 n2 : nat) :
  load_bytes m a (n1 + n2)
  = load_bytes m a n1 ++ load_bytes m (a + Z.of_nat n1) n2.
Proof.
  revert a. induction n1 as [|n1 IH]; intros a.
  - cbn [Nat.add]. rewrite Z.add_0_r. reflexivity.
  - cbn [Nat.add]. rewrite !load_bytes_S, IH. cbn [app]. do 3 f_equal. lia.
Qed.

(** A four-byte read is its two half-words, low half first. *)
Lemma read_insn_halves (m : memory) (p : Z) :
  read_insn m p = read_uint16 m p + 2 ^ 16 * read_uint16 m (p + 2).
Proof.
  pose proof (read_uint16_range m p) as Hlo.
  pose proof (read_uint16_range m (p + 2)) as Hhi.
  rewrite <- concat_halves by assumption.
  unfold wrap32. rewrite (Z.mod_small (Z.shiftl _ 16))
    by (rewrite Z.shiftl_mul_pow2; lia).
  unfold read_insn, read_uint16, deref, interp in *. cbn [is_signed andb].
  change (Z.to_nat (sizeof uint32)) with (2 + 2)%nat.
  change (Z.to_nat (sizeof uint16)) with 2%nat.
  rewrite load_bytes_app, le_combine_app, length_load_bytes. reflexivity.
Qed.

Section FetchWithinPage.
Context {P : processor_t}.

(** X12.  A four-byte instruction across a word boundary that does not
    start at the last half-word of its page is fetched in two halves from the
    same page; when the fetch tag of the page matches and the cached base is
    page aligned, the instruction returned is the 32-bit word at the resolved
    location of its first byte, and the MMU is unchanged. *)
Theorem fetch_across_boundary_within_page (s : mmu_t) (f : insn_func_t)
    (addr : reg_t) :
  RISCV_ENABLE_RVC = true ->
  0 <= addr < 2 ^ 64 -> addr mod 4 = 2 -> addr mod PGSIZE <> PGSIZE - 2 ->
  tlb_hit Fetch s addr ->
  0 <= tlb_data s (tlb_index addr) ->
  tlb_data s (tlb_index addr) mod PGSIZE = 0 ->
  let p := tlb_data s (tlb_index addr) + addr mod PGSIZE in
  INSN_IS_RVC (read_uint16 (mem s) p) = false ->
  load_insn addr true (s, f)
  = Ok (read_insn (mem s) p)
       (s, dispatch_table (read_uint16 (mem s) p mod DISPATCH_TABLE_SIZE)).
Proof.
  intros Hrvc Hr Hmod Hlast Hhit Hpos Hal p Hlong.
  change PGSIZE with 4096 in Hlast.
  assert (Hr2 : 0 <= addr + 2 < 2 ^ 64) by (Z.div_mod_to_equations; lia).
  assert (Hnext : wrap64 (addr + 2) = addr + 2)
    by (apply Z.mod_small; exact Hr2).
  assert (Hdiv : (addr + 2) / PGSIZE = addr / PGSIZE).
  { change PGSIZE with 4096. Z.div_mod_to_equations. lia. }
  assert (Hoff : (addr + 2) mod PGSIZE = addr mod PGSIZE + 2).
  { change PGSIZE with 4096. Z.div_mod_to_equations. lia. }
  assert (Hidx : tlb_index (addr + 2) = tlb_index addr).
  { unfold tlb_index. rewrite !shiftr_page, Hdiv. reflexivity. }
  assert (Hhit2 : tlb_hit Fetch s (addr + 2)).
  { unfold tlb_hit in *. rewrite Hidx, Hhit.
    rewrite !page_tag_in_range by assumption. rewrite Hoff. lia. }
  rewrite load_insn_rvc_path by assumption.
  rewrite (translate_hit Fetch) by (reflexivity || exact Hhit).
  rewrite tlb_location_sum by assumption. fold p. cbn zeta.
  rewrite Hlong, Hnext.
  rewrite (translate_hit Fetch) by (reflexivity || exact Hhit2).
  rewrite tlb_location_sum by (rewrite Hidx; assumption).
  rewrite Hidx, Hoff, Z.add_assoc. fold p.
  rewrite <- read_insn_halves. reflexivity.
Qed.

End FetchWithinPage.

(** ** A store leaves the TLB alone *)

(** X13.  A store that hits the TLB does not touch it: an address that hit
    before the store, for whatever kind, hits after it and resolves to the
    same location, also when the store has overwritten the page table the
    translation came from. *)
Theorem store_keeps_cached_translation (ty : int_type) (s : mmu_t)
    (a v : Z) (addr : reg_t) (store fetch : bool) :
  a mod sizeof ty = 0 -> tlb_hit Store s a ->
  tlb_hit (kind_of store fetch) s addr ->
  let s' := final (store_func ty a v s) in
  raised (store_func ty a v s) = None
  /\ translate addr store fetch s' = Ok (tlb_location s addr) s'.
Proof.
  intros Hal Hst Hhit. cbn zeta.
  rewrite store_func_aligned by exact Hal.
  rewrite (translate_hit Store) by (reflexivity || exact Hst).
  cbn [final raised]. split; [reflexivity|].
  rewrite (translate_hit (kind_of store fetch)); [reflexivity | reflexivity |].
  unfold tlb_hit in *. destruct (kind_of store fetch); exact Hhit.
Qed.

(** ** The further properties on the example machine *)

Lemma store_then_load_same_address_witness :
  returned ((store_uint8 0x1001 0x1ab ;; load_int8 0x1001) Example.ex_page1)
  = Some (-85).
Proof.
  unfold store_uint8, load_int8.
  rewrite (store_then_load_same_address uint8 int8 Example.ex_page1 0x1001 0x1ab
             eq_refl eq_refl);
    [reflexivity | vm_compute; reflexivity | vm_compute; reflexivity].
Defined.

Lemma store_leaves_other_locations_witness :
  returned ((store_uint32 0x1010 7 ;; load_uint32 0x1000) Example.ex_page1)
  = returned (load_uint32 0x1000 Example.ex_page1).
Proof.
  apply (store_leaves_other_locations uint32 uint32 Example.ex_page1
           0x1010 0x1000 7 eq_refl eq_refl).
  - vm_compute. reflexivity.
  - vm_compute. reflexivity.
  - left. vm_compute. discriminate.
Defined.

Lemma load_signed_unsigned_agree_witness :
  match load_func uint8 0x1001 Example.ex_page1,
        load_func int8 0x1001 Example.ex_page1 with
  | Ok vu su, Ok vs ss =>
      su = ss
      /\ 0 <= vu < 2 ^ bits_of uint8
      /\ - 2 ^ (bits_of int8 - 1) <= vs < 2 ^ (bits_of int8 - 1)
      /\ vs mod 2 ^ bits_of int8 = vu
  | Throw tu su, Throw ts ss => tu = ts /\ su = ss
  | _, _ => False
  end.
Proof.
  exact (load_signed_unsigned_agree uint8 int8 Example.ex_page1 0x1001
           eq_refl eq_refl eq_refl).
Defined.

Lemma tlb_hit_ignores_mode_witness :
  translate 4 false false
    (set_supervisor false (set_vm_enabled false Example.ex_after_load))
  = Ok (tlb_location Example.ex_after_load 4)
       (set_supervisor false (set_vm_enabled false Example.ex_after_load)).
Proof.
  apply (tlb_hit_ignores_mode Example.ex_after_load 4 false false false false).
  vm_compute. reflexivity.
Defined.

Lemma tlb_conflict_misses_witness :
  translate 0x100004 false false Example.ex_after_load
  = refill 0x100004 false false Example.ex_after_load.
Proof.
  apply (tlb_conflict_misses Example.ex_after_load 4 0x100004 false false).
  - lia.
  - lia.
  - vm_compute. reflexivity.
  - reflexivity.
  - vm_compute. discriminate.
Defined.

Lemma store_keeps_cached_translation_witness :
  translate 0x1010 false false
    (final (store_func uint64 0x1008 0 Example.ex_page1))
  = Ok (tlb_location Example.ex_page1 0x1010)
       (final (store_func uint64 0x1008 0 Example.ex_page1)).
Proof.
  apply (store_keeps_cached_translation uint64 Example.ex_page1 0x1008 0
           0x1010 false false eq_refl).
  - vm_compute. reflexivity.
  - vm_compute. reflexivity.
Defined.

Lemma icache_decoded_flush {P : processor_t} (s : mmu_t) :
  icache_decoded (flush_icache s) /\ icache_decoded (flush_tlb s).
Proof.
  split; intros pc Hpc Hhit; unfold icache_hit in Hhit;
    [change (icache_tag (flush_icache s) (icache_index pc)) with TAG_INVALID in Hhit
    |change (icache_tag (flush_tlb s) (icache_index pc)) with TAG_INVALID in Hhit];
    rewrite <- Hhit in Hpc; discriminate Hpc.
Qed.

Lemma fetch_is_repeatable_witness :
  exists insn s' h,
    load_insn (P := Example.ex_processor) 0x1000 false (Example.ex_mmu, 0)
    = Ok insn (s', h)
    /\ load_insn (P := Example.ex_processor) 0x1000 false (s', 9)
       = Ok insn (s', h).
Proof.
  assert (Hok : raised (load_insn (P := Example.ex_processor) 0x1000 false
                          (Example.ex_mmu, 0)) = None)
    by (vm_compute; reflexivity).
  destruct (load_insn (P := Example.ex_processor) 0x1000 false
              (Example.ex_mmu, 0)) as [insn [s' h] | t x] eqn:E;
    [|discriminate Hok].
  exists insn, s', h. split; [reflexivity|].
  exact (proj1 (fetch_is_repeatable (P := Example.ex_processor)
                  Example.ex_mmu s' 0 9 h 0x1000 false insn eq_refl E)).
Defined.

Lemma icache_decoded_preserved_witness :
  icache_decoded (P := Example.ex_processor) Example.ex_mmu
  /\ icache_decoded (P := Example.ex_processor) Example.ex_fetched.
Proof.
  assert (H : icache_decoded (P := Example.ex_processor) Example.ex_mmu)
    by apply (icache_decoded_flush (P := Example.ex_processor)).
  split; [exact H|].
  exact (proj1 (icache_decoded_preserved (P := Example.ex_processor)
                  Example.ex_mmu 0 0x1000 false uint8 0 0 H)).
Defined.

Lemma fetch_handle_matches_bits_witness :
  exists insn s' h,
    load_insn (P := Example.ex_processor) 0x1000 false (Example.ex_mmu, 0)
    = Ok insn (s', h)
    /\ h = dispatch_table (processor_t := Example.ex_processor)
             (insn mod DISPATCH_TABLE_SIZE (processor_t := Example.ex_processor)).
Proof.
  assert (Hok : raised (load_insn (P := Example.ex_processor) 0x1000 false
                          (Example.ex_mmu, 0)) = None)
    by (vm_compute; reflexivity).
  destruct (load_insn (P := Example.ex_processor) 0x1000 false
              (Example.ex_mmu, 0)) as [insn [s' h] | t x] eqn:E;
    [|discriminate Hok].
  exists insn, s', h. split; [reflexivity|].
  apply (fetch_handle_matches_bits (P := Example.ex_processor)
           Example.ex_mmu s' 0 h 0x1000 false insn).
  - apply (icache_decoded_flush (P := Example.ex_processor)).
  - reflexivity.
  - reflexivity.
  - exact E.
Defined.

Lemma store_keeps_cached_instruction_witness :
  let s' := final (store_uint32 0x1000 0 Example.ex_fetched) in
  read_insn (mem s') 0x6000 = 0
  /\ returned (load_insn (P := Example.ex_processor) 0x1000 false
                 ((s', 0) : fetch_state))
     = Some 0x00010013.
Proof.
  cbn zeta.
  assert (Hmem : read_insn (mem (final (store_uint32 0x1000 0 Example.ex_fetched)))
                   0x6000 = 0) by (vm_compute; reflexivity).
  assert (Hok : raised (store_uint32 0x1000 0 Example.ex_fetched) = None)
    by (vm_compute; reflexivity).
  split; [exact Hmem|]. clear Hmem. unfold store_uint32 in *.
  destruct (store_func uint32 0x1000 0 Example.ex_fetched) as [[] s' | t s'] eqn:E;
    [|discriminate Hok].
  cbn [final].
  assert (Hhit : icache_hit Example.ex_fetched 0x1000)
    by (vm_compute; reflexivity).
  pose proof (store_keeps_cached_instruction (P := Example.ex_processor)
                Example.ex_fetched s' 0 0x1000 false uint32 0x1000 0
                eq_refl Hhit E) as Hfetch.
  transitivity (Some (icache_data Example.ex_fetched (icache_index 0x1000)));
    [exact (f_equal returned Hfetch) | vm_compute; reflexivity].
Defined.

Lemma icache_entry_survives_other_fetch_witness :
  let s2 := fst (final (load_insn (P := Example.ex_processor) 0x1004 false
                          (Example.ex_fetched, 0))) in
  load_insn (P := Example.ex_processor) 0x1000 false (s2, 0)
  = Ok (icache_data Example.ex_fetched (icache_index 0x1000))
       (s2, icache_func Example.ex_fetched (icache_index 0x1000)).
Proof.
  apply (icache_entry_survives_other_fetch (P := Example.ex_processor)
           Example.ex_fetched 0 0 0x1000 0x1004 false false eq_refl).
  - vm_compute. reflexivity.
  - right. vm_compute. discriminate.
Defined.

Lemma rvc_flag_ignored_witness :
  load_insn (P := Example.ex_processor) 0x1000 true (Example.ex_mmu, 0)
  = load_insn (P := Example.ex_processor) 0x1000 false (Example.ex_mmu, 0).
Proof.
  apply (rvc_flag_ignored (P := Example.ex_processor)).
  right. vm_compute. discriminate.
Defined.

Lemma fetch_across_boundary_within_page_witness :
  read_insn (mem Example.ex_split) 0x6012 = 0x12345677
  /\ returned (load_insn (P := Example.ex_processor) 0x1012 true
                 (Example.ex_split, 0))
     = Some (read_insn (mem Example.ex_split) 0x6012).
Proof.
  split; [vm_compute; reflexivity|].
  assert (Hr : 0 <= 0x1012 < 2 ^ 64) by lia.
  assert (Hlast : 0x1012 mod PGSIZE <> PGSIZE - 2) by (vm_compute; discriminate).
  assert (Hhit : tlb_hit Fetch Example.ex_split 0x1012)
    by (vm_compute; reflexivity).
  assert (Hpos : 0 <= tlb_data Example.ex_split (tlb_index 0x1012))
    by (vm_compute; discriminate).
  assert (Hal : tlb_data Example.ex_split (tlb_index 0x1012) mod PGSIZE = 0)
    by (vm_compute; reflexivity).
  assert (Hlong : INSN_IS_RVC (processor_t := Example.ex_processor)
                    (read_uint16 (mem Example.ex_split)
                       (tlb_data Example.ex_split (tlb_index 0x1012)
                        + 0x1012 mod PGSIZE)) = false)
    by (vm_compute; reflexivity).
  pose proof (fetch_across_boundary_within_page (P := Example.ex_processor)
                Example.ex_split 0 0x1012 eq_refl Hr eq_refl Hlast Hhit
                Hpos Hal Hlong) as Hfetch.
  apply (f_equal returned) in Hfetch. cbn [returned] in Hfetch.
  etransitivity; [exact Hfetch|]. do 2 f_equal.
Defined.
